(** * Track: bounds of a tracked object over time

    A shallow embedding of [track/track.py] (class [Track]) and a
    verification of its behaviour.

    Numbers: Python's [int] and [float] values are embedded as exact
    rationals ([Q]); [int(v)] is truncation toward zero.  The square roots
    taken by [get_stats] and [get_track_region_score] are real numbers
    ([R]).  Rounding of binary64 arithmetic is not modelled.

    Objects: a [Region] is a mutable Python object.  Regions live in a
    store and a track's [bounds_history] is a list of references into it,
    so that [copy()], attribute assignment and list slicing have the
    sharing behaviour of the source. *)

From Stdlib Require Import ZArith QArith Qabs Qreals Reals Lra Lia List String Bool.
From Stdlib Require Import Sorting.Sorted Sorting.Permutation.
From Stdlib Require Lqa.
From stdpp Require Import base list.
Import ListNotations.

Local Open Scope Z_scope.

(** ** Python values, exceptions and results *)

(** The values that can reach the [id] parameter of [Track.__init__]. *)
Inductive pyval : Type :=
| PyNone
| PyBool (b : bool)
| PyInt (n : Z)
| PyFloat (q : Q)
| PyStr (s : string).

(** Python's truth value testing, as used by [not id]. *)
Definition truthy (v : pyval) : bool :=
  match v with
  | PyNone => false
  | PyBool b => b
  | PyInt n => negb (n =? 0)
  | PyFloat q => negb (Qeq_bool q 0)
  | PyStr s => negb (String.eqb s EmptyString)
  end.

Inductive exn : Type :=
| IndexError
| ZeroDivisionError
| TypeError
| ValueError.

(** Failures of the model itself, which no run of the program shows: a
    reference to an object that the store does not hold, and a loop that
    was not given enough fuel.  The theorems below exclude both. *)
Inductive fault : Type :=
| NoSuchObject
| OutOfFuel.

Inductive result (A : Type) : Type :=
| Ok (a : A)
| Raise (e : exn)
| Fault (f : fault).
Arguments Ok {A} a.
Arguments Raise {A} e.
Arguments Fault {A} f.

(** [int(v)] on a number: truncation toward zero. *)
Definition py_int (q : Q) : Z := Z.quot (Qnum q) (Zpos (Qden q)).

(** ** Region and Rectangle *)

(** Modelled from the spec: class [Region] of [track/region.py] is imported
    by [track.py] and is not among the sources.  The spec describes it as a
    bounding box with position, size, derived midpoint and area, a
    motion-mass value, a pixel-variance value and a frame index. *)
Module Region.
Record t : Type := mk {
  x : Q;
  y : Q;
  width : Q;
  height : Q;
  mass : Q;
  pixel_variance : Q;
  frame_index : Z
}.
End Region.
Abbreviation Region := Region.t.

Definition mid_x (r : Region) : Q := (Region.x r + Region.width r / 2)%Q.
Definition mid_y (r : Region) : Q := (Region.y r + Region.height r / 2)%Q.
Definition area (r : Region) : Q := (Region.width r * Region.height r)%Q.

Definition set_mass (v : Q) (r : Region) : Region :=
  Region.mk (Region.x r) (Region.y r) (Region.width r) (Region.height r)
            v (Region.pixel_variance r) (Region.frame_index r).
Definition set_pixel_variance (v : Q) (r : Region) : Region :=
  Region.mk (Region.x r) (Region.y r) (Region.width r) (Region.height r)
            (Region.mass r) v (Region.frame_index r).
Definition set_frame_index (v : Z) (r : Region) : Region :=
  Region.mk (Region.x r) (Region.y r) (Region.width r) (Region.height r)
            (Region.mass r) (Region.pixel_variance r) v.

(** Modelled from the spec: [Region(x, y, width, height)] as called by
    [smooth]; the measurements of the new object start at zero. *)
Definition Region_new (x y w h : Z) : Region :=
  Region.mk (inject_Z x) (inject_Z y) (inject_Z w) (inject_Z h) 0 0 0.

(** Modelled from the spec: class [Rectangle] of [ml_tools/tools.py], a
    simple axis-aligned bounding box, used only as the crop target. *)
Module Rectangle.
Record t : Type := mk {
  x : Q;
  y : Q;
  width : Q;
  height : Q
}.
End Rectangle.
Abbreviation Rectangle := Rectangle.t.

Definition Qmax (a b : Q) : Q := if Qle_bool a b then b else a.
Definition Qmin (a b : Q) : Q := if Qle_bool a b then a else b.

(** Modelled from the spec: [crop(frame_rectangle)] clips the region to a
    bounding rectangle. *)
Definition crop (r : Region) (b : Rectangle) : Region :=
  let new_left := Qmax (Region.x r) (Rectangle.x b) in
  let new_top := Qmax (Region.y r) (Rectangle.y b) in
  let new_right :=
    Qmin (Region.x r + Region.width r) (Rectangle.x b + Rectangle.width b) in
  let new_bottom :=
    Qmin (Region.y r + Region.height r) (Rectangle.y b + Rectangle.height b) in
  Region.mk new_left new_top (new_right - new_left) (new_bottom - new_top)
            (Region.mass r) (Region.pixel_variance r) (Region.frame_index r).

(** Modelled from the spec: [overlap_area(other)] is the area of the
    intersection of the two boxes. *)
Definition overlap_area (r other : Region) : Q :=
  let x_overlap :=
    Qmax 0 (Qmin (Region.x r + Region.width r)
                 (Region.x other + Region.width other)
            - Qmax (Region.x r) (Region.x other)) in
  let y_overlap :=
    Qmax 0 (Qmin (Region.y r + Region.height r)
                 (Region.y other + Region.height other)
            - Qmax (Region.y r) (Region.y other)) in
  (x_overlap * y_overlap)%Q.

(** ** The store and the monad of the methods *)

(** References to objects. *)
Abbreviation loc := nat.

(** The mutable state of a run: the [Region] objects, and the class
    attribute [Track._track_id]. *)
Record store : Type := mkStore {
  objs : list Region;
  cls_track_id : Z
}.

(** The class body: [_track_id = 1]. *)
Definition initial_store : store := mkStore [] 1.

Definition M (A : Type) : Type := store -> result (A * store).

Definition ret {A} (a : A) : M A := fun s => Ok (a, s).

Definition bind {A B} (m : M A) (k : A -> M B) : M B :=
  fun s =>
    match m s with
    | Ok (a, s') => k a s'
    | Raise e => Raise e
    | Fault f => Fault f
    end.

Definition raise {A} (e : exn) : M A := fun _ => Raise e.
Definition fault_with {A} (f : fault) : M A := fun _ => Fault f.

Declare Scope py_scope.
Delimit Scope py_scope with py.
Notation "'do' v <- m ; k" := (bind m (fun v => k))
  (at level 10, v name, m at level 100, k at level 200) : py_scope.
Notation "m ;;; k" := (bind m (fun _ => k))
  (at level 100, k at level 200, right associativity) : py_scope.
Local Open Scope py_scope.

(** Reading an object through a reference. *)
Definition load (l : loc) : M Region :=
  fun s =>
    match objs s !! l with
    | Some r => Ok (r, s)
    | None => Fault NoSuchObject
    end.

(** Creating an object: the reference is fresh. *)
Definition alloc (r : Region) : M loc :=
  fun s => Ok (length (objs s), mkStore (objs s ++ [r]) (cls_track_id s)).

(** Assigning to attributes of an object, in place. *)
Definition modify (l : loc) (f : Region -> Region) : M unit :=
  fun s =>
    match objs s !! l with
    | Some r => Ok (tt, mkStore (<[l := f r]> (objs s)) (cls_track_id s))
    | None => Fault NoSuchObject
    end.

Definition read_cls_track_id : M Z := fun s => Ok (cls_track_id s, s).

Fixpoint mapM {A B} (f : A -> M B) (l : list A) : M (list B) :=
  match l with
  | [] => ret []
  | a :: l' => do b <- f a; do bs <- mapM f l'; ret (b :: bs)
  end.

(** [for a in l: acc = body(acc, a)] *)
Fixpoint forM {A S} (l : list A) (body : S -> A -> M S) (acc : S) : M S :=
  match l with
  | [] => ret acc
  | a :: l' => do acc' <- body acc a; forM l' body acc'
  end.

(** ** Python lists *)

Definition len {A} (l : list A) : Z := Z.of_nat (length l).

(** [l[i]]: a negative index counts from the end; out of range raises. *)
Definition getitem {A} (l : list A) (i : Z) : M A :=
  let j := if i <? 0 then i + len l else i in
  if (0 <=? j) && (j <? len l) then
    match l !! Z.to_nat j with
    | Some a => ret a
    | None => raise IndexError
    end
  else raise IndexError.

(** The bound of a slice: negative bounds count from the end, and the
    result is clamped to the list. *)
Definition slice_bound {A} (l : list A) (i : Z) : nat :=
  let j := if i <? 0 then i + len l else i in
  Z.to_nat (Z.min (Z.max j 0) (len l)).

(** [l[start:stop]] *)
Definition slice {A} (l : list A) (start stop : Z) : list A :=
  let a := slice_bound l start in
  let b := slice_bound l stop in
  take (b - a) (drop a l).

(** [range(a, b)] *)
Definition range (a b : Z) : list Z :=
  map (fun k => a + Z.of_nat k) (seq 0 (Z.to_nat (b - a))).

(** ** Track *)

Record Track : Type := mkTrack {
  (* used to uniquely identify the track *)
  id : pyval;
  (* the instance attribute [_track_id], when the instance has one; a read
     of [self._track_id] falls back to the class attribute otherwise *)
  _track_id : option Z;
  (* frame number this track starts at *)
  start_frame : Z;
  (* our bounds over time *)
  bounds_history : list loc;
  (* number frames since we lost target. *)
  frames_since_target_seen : Z;
  (* our current estimated horizontal velocity *)
  vel_x : Q;
  (* our current estimated vertical velocity *)
  vel_y : Q;
  (* the tag for this track *)
  tag : string
}.

(** [self._track_id]: the instance attribute if set, else the class's. *)
Definition read_track_id (inst : option Z) : M Z :=
  match inst with
  | Some n => ret n
  | None => read_cls_track_id
  end.

(** [Track(id)]; [id] defaults to [None].

    [self._track_id += 1] reads the attribute through the instance and
    assigns the sum to the instance: the class attribute is not written. *)
Definition __init__ (id : pyval) : M Track :=
  if negb (truthy id) then
    (* self.id = self._track_id *)
    do n <- read_track_id None;
    (* self._track_id += 1 *)
    do m <- read_track_id None;
    ret (mkTrack (PyInt n) (Some (m + 1)) 0 [] 0 0 0 "unknown")
  else
    ret (mkTrack id None 0 [] 0 0 0 "unknown").

Definition set_bounds_history (h : list loc) (t : Track) : Track :=
  mkTrack (id t) (_track_id t) (start_frame t) h
          (frames_since_target_seen t) (vel_x t) (vel_y t) (tag t).
Definition set_start_frame (n : Z) (t : Track) : Track :=
  mkTrack (id t) (_track_id t) n (bounds_history t)
          (frames_since_target_seen t) (vel_x t) (vel_y t) (tag t).
Definition set_frames_since_target_seen (n : Z) (t : Track) : Track :=
  mkTrack (id t) (_track_id t) (start_frame t) (bounds_history t)
          n (vel_x t) (vel_y t) (tag t).
Definition set_vel_x (v : Q) (t : Track) : Track :=
  mkTrack (id t) (_track_id t) (start_frame t) (bounds_history t)
          (frames_since_target_seen t) v (vel_y t) (tag t).
Definition set_vel_y (v : Q) (t : Track) : Track :=
  mkTrack (id t) (_track_id t) (start_frame t) (bounds_history t)
          (frames_since_target_seen t) (vel_x t) v (tag t).

(** [obj.attr], for an attribute or a derived property of a [Region]. *)
Definition attr {A} (f : Region -> A) (l : loc) : M A :=
  do r <- load l; ret (f r).

(** The property [bounds]: [self.bounds_history[-1]]. *)
Definition bounds (t : Track) : M loc := getitem (bounds_history t) (-1).

(** [region.copy()]: a new object with the same attribute values. *)
Definition copy (l : loc) : M loc := do r <- load l; alloc r.

Definition add_frame (t : Track) (region : loc) : M Track :=
  do c <- copy region;
  let t := set_bounds_history (bounds_history t ++ [c]) t in
  let t := set_frames_since_target_seen 0 t in
  if 2 <=? len (bounds_history t) then
    do b1 <- getitem (bounds_history t) (-1);
    do x1 <- attr mid_x b1;
    do b2 <- getitem (bounds_history t) (-2);
    do x2 <- attr mid_x b2;
    let t := set_vel_x (x1 - x2)%Q t in
    do b1 <- getitem (bounds_history t) (-1);
    do y1 <- attr mid_y b1;
    do b2 <- getitem (bounds_history t) (-2);
    do y2 <- attr mid_y b2;
    ret (set_vel_y (y1 - y2)%Q t)
  else
    ret (set_vel_x 0 (set_vel_y 0 t)).

Definition add_blank_frame (t : Track) : M Track :=
  do b <- bounds t;
  do c <- copy b;
  let t := set_bounds_history (bounds_history t ++ [c]) t in
  do b <- bounds t;
  modify b (set_mass 0) ;;;
  do b <- bounds t;
  modify b (set_pixel_variance 0) ;;;
  do b <- bounds t;
  do i <- attr Region.frame_index b;
  modify b (set_frame_index (i + 1)) ;;;
  ret (set_vel_x 0 (set_vel_y 0 t)).

(** [while cond(v): v = body(v)] *)
Fixpoint while {V} (fuel : nat) (cond : V -> M bool) (body : V -> M V)
    (v : V) : M V :=
  match fuel with
  | O => fault_with OutOfFuel
  | S fuel' =>
      do c <- cond v;
      if c then do v' <- body v; while fuel' cond body v' else ret v
  end.

(** [trim], with the number of iterations allowed to each loop. *)
Definition trim_fuel (fuel : nat) (t : Track) : M Track :=
  do mass_history <-
    mapM (attr (fun bound => py_int (Region.mass bound))) (bounds_history t);
  do start <-
    while fuel
      (fun start =>
         if start <? len (bounds_history t) then
           do m <- getitem mass_history start; ret (m <=? 2)
         else ret false)
      (fun start => ret (start + 1))
      0;
  do end_ <-
    while fuel
      (fun end_ =>
         if 0 <? end_ then
           do m <- getitem mass_history end_; ret (m <=? 2)
         else ret false)
      (fun end_ => ret (end_ - 1))
      (len (bounds_history t) - 1);
  if end_ <? start then
    ret (set_bounds_history [] (set_start_frame 0 t))
  else
    let t := set_start_frame (start_frame t + start) t in
    ret (set_bounds_history (slice (bounds_history t) start (end_ + 1)) t).

(** Each loop of [trim] moves its cursor by one per iteration and stays
    within the history: one more iteration than the history has entries is
    enough. *)
Definition trim (t : Track) : M Track :=
  trim_fuel (S (length (bounds_history t))) t.

Definition smooth (t : Track) (frame_bounds : Rectangle) : M Track :=
  let h := bounds_history t in
  if len h =? 0 then ret t
  else
    do prev_frame <- getitem h 0;
    do current_frame <- getitem h 0;
    do next_frame <- getitem h 1;
    do new_bounds_history <-
      forM (range 0 (len h))
        (fun new_bounds_history i =>
           do prev_frame <- getitem h (Z.max 0 (i - 1));
           do current_frame <- getitem h i;
           do next_frame <- getitem h (Z.min (len h - 1) (i + 1));
           do frame_x <- attr mid_x current_frame;
           do frame_y <- attr mid_y current_frame;
           do wp <- attr Region.width prev_frame;
           do wc <- attr Region.width current_frame;
           do wn <- attr Region.width next_frame;
           let frame_width := ((wp + wc + wn) / 3)%Q in
           do hp <- attr Region.height prev_frame;
           do hc <- attr Region.height current_frame;
           do hn <- attr Region.height next_frame;
           let frame_height := ((hp + hc + hn) / 3)%Q in
           do frame <-
             alloc (Region_new (py_int (frame_x - frame_width / 2))
                               (py_int (frame_y - frame_height / 2))
                               (py_int frame_width) (py_int frame_height));
           modify frame (fun r => crop r frame_bounds) ;;;
           ret (new_bounds_history ++ [frame]))
        [];
    ret (set_bounds_history new_bounds_history t).

(** ** Statistics *)

Record TrackMovementStatistics : Type := mkStats {
  movement : R;
  max_offset : R;
  score : R;
  average_mass : R;
  median_mass : R;
  delta_std : R
}.

(** [TrackMovementStatistics()]: every field defaults to 0. *)
Definition default_stats : TrackMovementStatistics :=
  mkStats 0 0 0 0 0 0.

(** [a / b] on numbers. *)
Definition div (a b : Q) : M Q :=
  if Qeq_bool b 0 then raise ZeroDivisionError else ret (a / b)%Q.

Definition Qsum (l : list Q) : Q := fold_left Qplus l 0%Q.

(** [sum(...)] of floats. *)
Definition Rsum (l : list R) : R := fold_left Rplus l 0%R.

(** [max(...)]: raises on an empty sequence. *)
Definition py_max (l : list R) : M R :=
  match l with
  | [] => raise ValueError
  | a :: l' => ret (fold_left Rmax l' a)
  end.

(** [np.mean] of a non-empty list. *)
Definition np_mean (l : list Q) : Q := (Qsum l / inject_Z (len l))%Q.

Fixpoint insert_sorted (a : Z) (l : list Z) : list Z :=
  match l with
  | [] => [a]
  | b :: l' => if a <=? b then a :: l else b :: insert_sorted a l'
  end.

Definition sorted (l : list Z) : list Z := fold_right insert_sorted [] l.

(** [np.median] of a list of integers: the middle element of the sorted
    list, or the mean of the two middle elements. *)
Definition np_median (l : list Z) : Q :=
  let s := sorted l in
  let n := length l in
  let lower := nth (Nat.div n 2 - 1)%nat s 0%Z in
  let upper := nth (Nat.div n 2) s 0%Z in
  if Nat.even n then ((inject_Z lower + inject_Z upper) / 2)%Q
  else inject_Z upper.

(** [(a ** 2 + b ** 2) ** 0.5]: the base is a sum of squares, never
    negative, and the power is the real square root. *)
Definition norm (a b : Q) : R := sqrt (Q2R (a ^ 2 + b ^ 2)).

Definition get_stats (t : Track) : M TrackMovementStatistics :=
  let h := bounds_history t in
  if len h <=? 1 then ret default_stats
  else
    (* get movement vectors *)
    do mass_history <- mapM (attr (fun bound => py_int (Region.mass bound))) h;
    do variance_history <- mapM (attr Region.pixel_variance) h;
    do mid_xs <- mapM (attr mid_x) h;
    do mid_ys <- mapM (attr mid_y) h;
    do delta_xs <-
      mapM (fun x => do x0 <- getitem mid_xs 0; ret (x0 - x)%Q) mid_xs;
    do delta_ys <-
      mapM (fun y => do y0 <- getitem mid_ys 0; ret (y0 - y)%Q) mid_ys;
    let vel_xs :=
      map (fun '(cur, prev) => (cur - prev)%Q)
          (zip (slice mid_xs 1 (len mid_xs)) (slice mid_xs 0 (-1))) in
    let vel_ys :=
      map (fun '(cur, prev) => (cur - prev)%Q)
          (zip (slice mid_ys 1 (len mid_ys)) (slice mid_ys 0 (-1))) in
    let movement :=
      Rsum (map (fun '(vx, vy) => norm vx vy) (zip vel_xs vel_ys)) in
    do max_offset <-
      py_max (map (fun '(dx, dy) => norm dx dy) (zip delta_xs delta_ys));
    (* a negative base gives a complex power, which [min] rejects *)
    let mean_variance := np_mean variance_history in
    if Qle_bool 0 mean_variance then
      let delta_std := sqrt (Q2R mean_variance) in
      let movement_points := (sqrt movement + max_offset)%R in
      let delta_points := (delta_std * 25)%R in
      let score := (Rmin movement_points 100 + Rmin delta_points 100)%R in
      ret (mkStats movement max_offset score
                   (Q2R (np_mean (map inject_Z mass_history)))
                   (Q2R (np_median mass_history))
                   delta_std)
    else raise TypeError.

(** ** Scores *)

Definition get_track_region_score (t : Track) (region : loc) : M (R * Q) :=
  do b <- bounds t;
  do mx <- attr mid_x b;
  let expected_x := py_int (mx + vel_x t) in
  do b <- bounds t;
  do my <- attr mid_y b;
  let expected_y := py_int (my + vel_y t) in
  do rx <- attr mid_x region;
  do ry <- attr mid_y region;
  let distance := norm (rx - inject_Z expected_x) (ry - inject_Z expected_y) in
  (* area is padded with 50 pixels so small regions don't change too much *)
  do ra <- attr area region;
  do b <- bounds t;
  do ba <- attr area b;
  do b <- bounds t;
  do ba' <- attr area b;
  do ratio <- div (Qabs (ra - ba)) (ba' + 50);
  let size_difference := (ratio * 100)%Q in
  ret (distance, size_difference).

Definition get_overlap_ratio (t other_track : Track) (threshold : Q) : M Q :=
  let h := bounds_history t in
  let oh := bounds_history other_track in
  if (len h =? 0) || (len oh =? 0) then ret 0%Q
  else
    let start := Z.max (start_frame t) (start_frame other_track) in
    let end_ :=
      Z.min (start_frame t + len h) (start_frame other_track + len oh) in
    do frames_overlapped <-
      forM (range start (end_ + 1))
        (fun frames_overlapped pos =>
           let our_index := pos - start_frame t in
           let other_index := pos - start_frame other_track in
           if (0 <=? our_index) && (0 <=? other_index)
              && (our_index <? len h) && (other_index <? len oh) then
             do our_bounds <- getitem h our_index;
             do other_bounds <- getitem oh other_index;
             do ours <- load our_bounds;
             do others <- load other_bounds;
             do a <- attr area our_bounds;
             do overlap <- div (overlap_area ours others) a;
             if Qle_bool threshold overlap then ret (frames_overlapped + 1)
             else ret frames_overlapped
           else ret frames_overlapped)
        0;
    div (inject_Z frames_overlapped) (inject_Z (len h)).

(** ** Properties and special methods *)

(** The property [mass]: [self.bounds_history[-1].mass]. *)
Definition mass (t : Track) : M Q :=
  do b <- getitem (bounds_history t) (-1);
  attr Region.mass b.

(** [len(self)]: [len(self.bounds_history)]. *)
Definition __len__ (t : Track) : Z := len (bounds_history t).

(** * Specification *)

(** The history [h] holds references to the regions [rs] of the store. *)
Definition denotes (s : store) (h : list loc) (rs : list Region) : Prop :=
  Forall2 (fun l r => objs s !! l = Some r) h rs.

(** A frame is empty when its mass, as an integer, is at most 2. *)
Definition empty_mass (m : Z) : bool := m <=? 2.

Definition frame_empty (s : store) (l : loc) : bool :=
  match objs s !! l with
  | Some r => empty_mass (py_int (Region.mass r))
  | None => false
  end.

(** The length of the longest prefix of [l] whose elements satisfy [p]. *)
Fixpoint lead {A} (p : A -> bool) (l : list A) : nat :=
  match l with
  | [] => 0
  | a :: l' => if p a then S (lead p l') else 0
  end.

(** What [trim] leaves of a track, given which frames are empty. *)
Definition trimmed (p : loc -> bool) (t : Track) : Track :=
  let h := bounds_history t in
  let a := lead p h in
  let b := lead p (rev h) in
  if (a =? length h)%nat then
    set_bounds_history [] (set_start_frame 0 t)
  else
    set_bounds_history (take (length h - a - b) (drop a h))
                       (set_start_frame (start_frame t + Z.of_nat a) t).

(** The conditions of the two loops of [trim]. *)
Definition start_cond (n : Z) (mass_history : list Z) (start : Z) : M bool :=
  if start <? n then
    do m <- getitem mass_history start; ret (m <=? 2)
  else ret false.

Definition end_cond (mass_history : list Z) (end_ : Z) : M bool :=
  if 0 <? end_ then
    do m <- getitem mass_history end_; ret (m <=? 2)
  else ret false.

(** The index at which the backward loop stops. *)
Definition end_of (l : list Z) : Z :=
  match l with
  | [] => -1
  | _ => Z.max 0 (len l - 1 - Z.of_nat (lead empty_mass (rev l)))
  end.

(** The velocity that the two most recent regions of a history give: the
    difference of their midpoints, or zero with fewer than two regions. *)
Definition velocity_of (rs : list Region) : Q * Q :=
  match rev rs with
  | r1 :: r2 :: _ => ((mid_x r1 - mid_x r2)%Q, (mid_y r1 - mid_y r2)%Q)
  | _ => (0%Q, 0%Q)
  end.

(** The velocity of a track agrees with its history. *)
Definition velocity_current (s : store) (t : Track) : Prop :=
  exists rs, denotes s (bounds_history t) rs
    /\ (vel_x t == fst (velocity_of rs))%Q
    /\ (vel_y t == snd (velocity_of rs))%Q.

(** The region that [add_blank_frame] appends, from the last one. *)
Definition blank_of (r : Region) : Region :=
  Region.mk (Region.x r) (Region.y r) (Region.width r) (Region.height r)
            0 0 (Region.frame_index r + 1).

(** The region that [smooth] builds for a frame from the frame and its two
    neighbours. *)
Definition smooth_frame (frame_bounds : Rectangle) (prev cur next : Region)
    : Region :=
  let frame_width :=
    ((Region.width prev + Region.width cur + Region.width next) / 3)%Q in
  let frame_height :=
    ((Region.height prev + Region.height cur + Region.height next) / 3)%Q in
  crop (Region_new (py_int (mid_x cur - frame_width / 2))
                   (py_int (mid_y cur - frame_height / 2))
                   (py_int frame_width) (py_int frame_height))
       frame_bounds.

(** The smoothed regions of [l], whose first element has [prev] before it;
    the last element is its own successor. *)
Fixpoint smoothed_from (frame_bounds : Rectangle) (prev : Region)
    (l : list Region) : list Region :=
  match l with
  | [] => []
  | cur :: l' =>
      smooth_frame frame_bounds prev cur (hd cur l')
      :: smoothed_from frame_bounds cur l'
  end.

(** The first element is its own predecessor. *)
Definition smoothed (frame_bounds : Rectangle) (rs : list Region)
    : list Region :=
  match rs with
  | [] => []
  | r :: _ => smoothed_from frame_bounds r rs
  end.

(** The body of the loop of [smooth]. *)
Definition smooth_body (h : list loc) (frame_bounds : Rectangle)
    (new_bounds_history : list loc) (i : Z) : M (list loc) :=
  do prev_frame <- getitem h (Z.max 0 (i - 1));
  do current_frame <- getitem h i;
  do next_frame <- getitem h (Z.min (len h - 1) (i + 1));
  do frame_x <- attr mid_x current_frame;
  do frame_y <- attr mid_y current_frame;
  do wp <- attr Region.width prev_frame;
  do wc <- attr Region.width current_frame;
  do wn <- attr Region.width next_frame;
  let frame_width := ((wp + wc + wn) / 3)%Q in
  do hp <- attr Region.height prev_frame;
  do hc <- attr Region.height current_frame;
  do hn <- attr Region.height next_frame;
  let frame_height := ((hp + hc + hn) / 3)%Q in
  do frame <-
    alloc (Region_new (py_int (frame_x - frame_width / 2))
                      (py_int (frame_y - frame_height / 2))
                      (py_int frame_width) (py_int frame_height));
  modify frame (fun r => crop r frame_bounds) ;;;
  ret (new_bounds_history ++ [frame]).

(** The body of the loop of [get_overlap_ratio]. *)
Definition overlap_body (t other_track : Track) (threshold : Q)
    (frames_overlapped : Z) (pos : Z) : M Z :=
  let h := bounds_history t in
  let oh := bounds_history other_track in
  let our_index := pos - start_frame t in
  let other_index := pos - start_frame other_track in
  if (0 <=? our_index) && (0 <=? other_index)
     && (our_index <? len h) && (other_index <? len oh) then
    do our_bounds <- getitem h our_index;
    do other_bounds <- getitem oh other_index;
    do ours <- load our_bounds;
    do others <- load other_bounds;
    do a <- attr area our_bounds;
    do overlap <- div (overlap_area ours others) a;
    if Qle_bool threshold overlap then ret (frames_overlapped + 1)
    else ret frames_overlapped
  else ret frames_overlapped.

(** The frame [pos] counts as overlapped: both tracks have an entry for it
    and the overlap, as a share of the area of our region, reaches the
    threshold. *)
Definition frame_overlaps (rs ors : list Region) (sf osf : Z) (threshold : Q)
    (pos : Z) : bool :=
  (0 <=? pos - sf) && (0 <=? pos - osf)
  && match rs !! Z.to_nat (pos - sf), ors !! Z.to_nat (pos - osf) with
     | Some ours, Some others =>
         Qle_bool threshold (overlap_area ours others / area ours)
     | _, _ => false
     end.

(** The frames that both tracks cover: from the later start to the earlier
    end. *)
Definition shared_start (t other_track : Track) : Z :=
  Z.max (start_frame t) (start_frame other_track).
Definition shared_end (t other_track : Track) : Z :=
  Z.min (start_frame t + len (bounds_history t))
        (start_frame other_track + len (bounds_history other_track)).

(** The number of elements of [l] that satisfy [p]. *)
Fixpoint count {A} (p : A -> bool) (l : list A) : nat :=
  match l with
  | [] => 0
  | a :: l' => if p a then S (count p l') else count p l'
  end.

(** The number of overlapped frames among those both tracks cover. *)
Definition count_overlapped (rs ors : list Region) (t other_track : Track)
    (threshold : Q) : nat :=
  count (frame_overlaps rs ors (start_frame t) (start_frame other_track)
                        threshold)
        (range (shared_start t other_track) (shared_end t other_track)).

(** The distance of a region from the point that the midpoint of the
    current region and the velocity predict, without rounding. *)
Definition claimed_distance (t : Track) (cur r : Region) : R :=
  norm (mid_x r - (mid_x cur + vel_x t)) (mid_y r - (mid_y cur + vel_y t)).

(** The distance that [get_track_region_score] returns: the predicted
    point is truncated to integer coordinates first. *)
Definition score_distance (t : Track) (cur r : Region) : R :=
  norm (mid_x r - inject_Z (py_int (mid_x cur + vel_x t)))
       (mid_y r - inject_Z (py_int (mid_y cur + vel_y t))).

Definition score_size_difference (cur r : Region) : Q :=
  (Qabs (area r - area cur) / (area cur + 50) * 100)%Q.

(** *** Statistics, as the specification words them *)

(** The sum, over the pairs of consecutive frames, of the Euclidean norm
    of the difference of the midpoints. *)
Fixpoint movement_of (rs : list Region) : R :=
  match rs with
  | r1 :: ((r2 :: _) as rest) =>
      (norm (mid_x r2 - mid_x r1) (mid_y r2 - mid_y r1) + movement_of rest)%R
  | _ => 0%R
  end.

(** The Euclidean distance from the midpoint of [r] to that of [first]. *)
Definition offset_from (first r : Region) : R :=
  norm (mid_x r - mid_x first) (mid_y r - mid_y first).

(** [m] is the maximum of the list [l]. *)
Definition is_maximum (m : R) (l : list R) : Prop :=
  In m l /\ forall v, In v l -> (v <= m)%R.

Definition int_mass (r : Region) : Z := py_int (Region.mass r).

(** The statistics of a history of two regions or more. *)
Definition stats_of (rs : list Region) : TrackMovementStatistics :=
  let first := hd (Region_new 0 0 0 0) rs in
  let movement := movement_of rs in
  let max_offset :=
    fold_left Rmax (map (offset_from first) (tl rs)) (offset_from first first)
  in
  let delta_std := sqrt (Q2R (np_mean (map Region.pixel_variance rs))) in
  mkStats movement max_offset
          (Rmin (sqrt movement + max_offset) 100 + Rmin (delta_std * 25) 100)%R
          (Q2R (np_mean (map inject_Z (map int_mass rs))))
          (Q2R (np_median (map int_mass rs)))
          delta_std.

(** The pairs of neighbours of a list, in order. *)
Fixpoint steps {A} (l : list A) : list (A * A) :=
  match l with
  | a :: ((b :: _) as rest) => (a, b) :: steps rest
  | _ => []
  end.

(** *** The quantities of the statistics, stated on their own *)

(** The Euclidean norm of the vector [(a, b)]. *)
Definition euclidean (a b : Q) : R :=
  sqrt (Q2R a * Q2R a + Q2R b * Q2R b).

(** The length of the path through the midpoints of the regions. *)
Fixpoint path_length (rs : list Region) : R :=
  match rs with
  | r1 :: ((r2 :: _) as rest) =>
      (euclidean (mid_x r2 - mid_x r1) (mid_y r2 - mid_y r1)
       + path_length rest)%R
  | _ => 0%R
  end.

(** The distance from the midpoint of [r] to the midpoint of [first]. *)
Definition distance_to (first r : Region) : R :=
  euclidean (mid_x r - mid_x first) (mid_y r - mid_y first).

(** The sum of a list. *)
Definition total (l : list Q) : Q := fold_right Qplus 0%Q l.

(** [m] is the arithmetic mean of [l]: [m] times the number of elements is
    their sum. *)
Definition is_mean (l : list Q) (m : Q) : Prop :=
  (m * inject_Z (Z.of_nat (length l)) == total l)%Q.

(** The middle of a sorted list: its middle element, or the mean of the two
    middle elements when their number is even. *)
Definition middle (srt : list Z) : Q :=
  let n := length srt in
  if Nat.even n then
    ((inject_Z (nth (Nat.div n 2 - 1)%nat srt 0%Z)
      + inject_Z (nth (Nat.div n 2) srt 0%Z)) / 2)%Q
  else inject_Z (nth (Nat.div n 2) srt 0%Z).

(** [m] is the median of [l]: the middle of [l] put in order. *)
Definition is_median (l : list Z) (m : Q) : Prop :=
  exists srt, Permutation srt l /\ Sorted Z.le srt /\ m = middle srt.

(** *** Runs of several calls *)

(** [k] calls of [add_blank_frame] in a row. *)
Fixpoint add_blank_frames (k : nat) (t : Track) : M Track :=
  match k with
  | O => ret t
  | S k' => do t' <- add_blank_frame t; add_blank_frames k' t'
  end.

(** The region that the [i]-th blank frame after [r] holds. *)
Definition blank_after (r : Region) (i : nat) : Region :=
  Region.mk (Region.x r) (Region.y r) (Region.width r) (Region.height r)
            0 0 (Region.frame_index r + Z.of_nat i).

(** [n] tracks constructed one after the other, without an id. *)
Definition construct_all (n : nat) : M (list Track) :=
  mapM (fun _ : nat => __init__ PyNone) (seq 0 n).

(** The references of a history are valid and pairwise distinct: every
    entry is an object of its own. *)
Definition history_ok (s : store) (t : Track) : Prop :=
  NoDup (bounds_history t)
  /\ Forall (fun l => (l < length (objs s))%nat) (bounds_history t).

(** A region moved by [(dx, dy)]. *)
Definition translate (dx dy : Q) (r : Region) : Region :=
  Region.mk (Region.x r + dx) (Region.y r + dy) (Region.width r)
            (Region.height r) (Region.mass r) (Region.pixel_variance r)
            (Region.frame_index r).

(** ** Sample data *)

Definition box (x y w h : Z) (mass : Q) : Region :=
  Region.mk (inject_Z x) (inject_Z y) (inject_Z w) (inject_Z h) mass 0 0.

(** A store holding five regions with the masses 1, 1, 50, 50, 1, and a
    track whose history refers to them in this order. *)
Definition store5 : store :=
  mkStore [box 0 0 10 10 1; box 1 0 10 10 1; box 2 0 10 10 50;
           box 3 0 10 10 50; box 4 0 10 10 1] 1.

Definition track5 : Track :=
  mkTrack (PyInt 1) (Some 2) 0 [0; 1; 2; 3; 4]%nat 0 1 0 "unknown".

(** Three regions of the caller, with midpoints 5, 10 and 12 on the x axis
    and the masses 10, 10 and 0. *)
Definition store3 : store :=
  mkStore [box 0 0 10 10 10; box 5 0 10 10 10; box 7 0 10 10 0] 1.

(** A new track receives the three regions as frames and is then trimmed. *)
Definition three_frames_then_trim : M Track :=
  do t <- __init__ PyNone;
  do t <- add_frame t 0%nat;
  do t <- add_frame t 1%nat;
  do t <- add_frame t 2%nat;
  trim t.

(** Ten regions of area 100 at one position; track A covers the frames 0
    to 4 and track B the frames 2 to 6. *)
Definition store10 : store :=
  mkStore (replicate 10 (box 0 0 10 10 50)) 1.

Definition trackA : Track :=
  mkTrack (PyInt 1) (Some 2) 0 [0; 1; 2; 3; 4]%nat 0 0 0 "unknown".

Definition trackB : Track :=
  mkTrack (PyInt 1) (Some 2) 2 [5; 6; 7; 8; 9]%nat 0 0 0 "unknown".

(** A track whose only region has width 0, hence area 0. *)
Definition flat_store : store := mkStore [box 0 0 0 10 50] 1.

Definition flat_track : Track :=
  mkTrack (PyInt 1) (Some 2) 0 [0%nat] 0 0 0 "unknown".

(** A track at rest whose only region is the unit square at the origin,
    with midpoint (1/2, 1/2). *)
Definition unit_store : store := mkStore [box 0 0 1 1 50] 1.

Definition unit_track : Track :=
  mkTrack (PyInt 1) (Some 2) 0 [0%nat] 0 0 0 "unknown".

(** Three frames of mass 10 at one position, without pixel variance. *)
Definition store_still : store := mkStore (replicate 3 (box 0 0 10 10 10)) 1.

Definition track_still : Track :=
  mkTrack (PyInt 1) (Some 2) 0 [0; 1; 2]%nat 0 0 0 "unknown".

(** Two regions whose pixel variance is recorded as -1. *)
Definition store_negative : store :=
  mkStore (replicate 2 (Region.mk 0 0 10 10 50 (-1) 0)) 1.

Definition track_negative : Track :=
  mkTrack (PyInt 1) (Some 2) 0 [0; 1]%nat 0 0 0 "unknown".

(** * Verification *)

(** Decide the integer comparisons of the goal by linear arithmetic. *)
Ltac zbool :=
  repeat match goal with
  | |- context [Z.ltb ?a ?b] =>
      first [ rewrite (proj2 (Z.ltb_lt a b)) by lia
            | rewrite (proj2 (Z.ltb_ge a b)) by lia ]
  | |- context [Z.leb ?a ?b] =>
      first [ rewrite (proj2 (Z.leb_le a b)) by lia
            | rewrite (proj2 (Z.leb_gt a b)) by lia ]
  | |- context [Z.eqb ?a ?b] =>
      first [ rewrite (proj2 (Z.eqb_eq a b)) by lia
            | rewrite (proj2 (Z.eqb_neq a b)) by lia ]
  end.


(** ** Construction and the id counter *)

(** Construction without an id reads the class attribute and leaves it as
    it was: the incremented value goes to the new instance. *)
Lemma init_auto (s : store) :
  __init__ PyNone s
  = Ok (mkTrack (PyInt (cls_track_id s)) (Some (cls_track_id s + 1))
                0 [] 0 0 0 "unknown", s).
Proof. reflexivity. Qed.

Lemma init_keeps_class_counter (v : pyval) (s s' : store) (t : Track) :
  __init__ v s = Ok (t, s') -> s' = s.
Proof.
  unfold __init__.
  destruct (negb (truthy v)); cbv [bind ret read_track_id read_cls_track_id];
    intros E; inversion E; reflexivity.
Qed.

(** C1 (the code departs from the claim): two tracks constructed one after
    the other without an explicit id, starting from the state the class
    body leaves, both receive the id 1, and the class attribute
    [Track._track_id] is still 1 afterwards.  The ids are not distinct. *)
Theorem auto_ids_coincide :
  exists t1 s1 t2 s2,
    __init__ PyNone initial_store = Ok (t1, s1)
    /\ __init__ PyNone s1 = Ok (t2, s2)
    /\ id t1 = PyInt 1 /\ id t2 = PyInt 1
    /\ cls_track_id s2 = 1.
Proof.
  do 4 eexists. repeat split; reflexivity.
Qed.

(** C10: an explicit id that tests false (0, [False], [0.0], the empty
    string, [None]) is not assigned.  The constructor behaves exactly as
    with no id: the new track carries the value of the counter, which
    differs from the id given whenever the counter is positive, as it is
    from the start. *)
Theorem init_falsy_id_is_auto (v : pyval) (s : store)
    (Hfalsy : truthy v = false) (Hcounter : 0 < cls_track_id s) :
  __init__ v s = __init__ PyNone s
  /\ exists t, __init__ v s = Ok (t, s)
       /\ id t = PyInt (cls_track_id s) /\ id t <> v.
Proof.
  assert (E : __init__ v s = __init__ PyNone s).
  { unfold __init__. rewrite Hfalsy. reflexivity. }
  split; [exact E|].
  rewrite E, init_auto. eexists. split; [reflexivity|]. cbn. split; [reflexivity|].
  intros <-. cbn in Hfalsy. apply negb_false_iff, Z.eqb_eq in Hfalsy. lia.
Qed.

Lemma init_falsy_id_is_auto_witness :
  truthy (PyInt 0) = false /\ 0 < cls_track_id initial_store
  /\ __init__ (PyInt 0) initial_store = __init__ PyNone initial_store.
Proof.
  split; [reflexivity|]. split; [reflexivity|].
  apply (init_falsy_id_is_auto (PyInt 0) initial_store); reflexivity.
Defined.

(** ** The monad and Python lists *)

Lemma bind_ok {A B} (m : M A) (k : A -> M B) (s s' : store) (a : A) :
  m s = Ok (a, s') -> bind m k s = k a s'.
Proof. unfold bind. intros ->. reflexivity. Qed.

Lemma len_app {A} (l1 l2 : list A) : len (l1 ++ l2) = len l1 + len l2.
Proof. unfold len. rewrite length_app. lia. Qed.

Lemma len_nonneg {A} (l : list A) : 0 <= len l.
Proof. unfold len. lia. Qed.

Lemma getitem_ok {A} (l : list A) (i : Z) (a : A) (s : store) :
  0 <= i -> l !! Z.to_nat i = Some a -> getitem l i s = Ok (a, s).
Proof.
  intros Hi Hl. unfold getitem.
  pose proof (lookup_lt_Some _ _ _ Hl) as Hlt.
  unfold len. zbool. cbn. rewrite Hl. reflexivity.
Qed.

Lemma getitem_middle {A} (l1 l2 : list A) (a : A) (s : store) :
  getitem (l1 ++ a :: l2) (len l1) s = Ok (a, s).
Proof.
  apply getitem_ok; [apply len_nonneg|].
  unfold len. rewrite Nat2Z.id. apply list_lookup_middle. reflexivity.
Qed.

(** A negative index counts from the end. *)
Lemma getitem_from_end {A} (l : list A) (k : nat) (a : A) (s : store) :
  (k < length l)%nat ->
  l !! (length l - S k)%nat = Some a ->
  getitem l (- Z.of_nat (S k)) s = Ok (a, s).
Proof.
  intros Hk Hl. unfold getitem.
  unfold len. zbool. cbn [andb].
  replace (Z.to_nat (- Z.of_nat (S k) + Z.of_nat (length l)))
    with (length l - S k)%nat by lia.
  rewrite Hl. reflexivity.
Qed.

Lemma getitem_out_of_range {A} (l : list A) (i : Z) (s : store) :
  len l <= i -> getitem l i s = Raise IndexError.
Proof.
  intros Hi. unfold getitem. pose proof (len_nonneg l).
  zbool. reflexivity.
Qed.

Lemma attr_ok {A} (f : Region -> A) (l : loc) (r : Region) (s : store) :
  objs s !! l = Some r -> attr f l s = Ok (f r, s).
Proof. intros H. unfold attr, bind, load. rewrite H. reflexivity. Qed.

Lemma mapM_attr {A} (f : Region -> A) (s : store) (h : list loc)
    (rs : list Region) :
  denotes s h rs -> mapM (attr f) h s = Ok (map f rs, s).
Proof.
  induction 1 as [|l r h rs Hl _ IH]; [reflexivity|].
  cbn [mapM map]. rewrite (bind_ok _ _ _ _ _ (attr_ok f l r s Hl)).
  rewrite (bind_ok _ _ _ _ _ IH). reflexivity.
Qed.

Lemma denotes_length (s : store) (h : list loc) (rs : list Region) :
  denotes s h rs -> length h = length rs.
Proof. apply Forall2_length. Qed.

Lemma denotes_lookup (s : store) (h : list loc) (rs : list Region)
    (i : nat) (l : loc) :
  denotes s h rs -> h !! i = Some l ->
  exists r, rs !! i = Some r /\ objs s !! l = Some r.
Proof.
  intros H Hl. destruct (Forall2_lookup_l _ _ _ _ _ H Hl) as (r & ? & ?).
  eauto.
Qed.

(** ** Leading runs *)

Section Lead.
Context {A : Type} (p : A -> bool).

Lemma lead_le (l : list A) : (lead p l <= length l)%nat.
Proof. induction l as [|a l IH]; cbn; [lia|]. destruct (p a); cbn; lia. Qed.

Lemma lead_take (l : list A) : Forall (fun a => p a = true) (take (lead p l) l).
Proof.
  induction l as [|a l IH]; cbn; [constructor|].
  destruct (p a) eqn:E; cbn; [constructor; assumption|constructor].
Qed.

Lemma lead_drop (l : list A) (a : A) :
  head (drop (lead p l) l) = Some a -> p a = false.
Proof.
  induction l as [|b l IH]; cbn; [discriminate|].
  destruct (p b) eqn:E; cbn; [exact IH|]. intros [= <-]. exact E.
Qed.

Lemma lead_all (l : list A) :
  lead p l = length l <-> Forall (fun a => p a = true) l.
Proof.
  induction l as [|a l IH]; cbn; [split; [constructor|reflexivity]|].
  destruct (p a) eqn:E; split.
  - intros [= H]. constructor; [exact E|]. apply IH, H.
  - intros H. inversion H; subst. f_equal. apply IH. assumption.
  - discriminate.
  - intros H. inversion H; subst. congruence.
Qed.

Lemma lead_app_stop (l1 l2 : list A) (a : A) :
  p a = false -> (lead p (l1 ++ a :: l2) <= length l1)%nat.
Proof.
  intros E. induction l1 as [|b l1 IH]; cbn; [rewrite E; lia|].
  destruct (p b); lia.
Qed.

(** When some element fails [p], the leading and the trailing run do not
    meet. *)
Lemma lead_rev_disjoint (l : list A) :
  (lead p l < length l)%nat ->
  (lead p l + lead p (rev l) < length l)%nat.
Proof.
  intros Hlt.
  destruct (drop (lead p l) l) as [|a rest] eqn:E.
  { apply (f_equal length) in E. rewrite length_drop in E. cbn in E. lia. }
  assert (Ha : p a = false) by (apply (lead_drop l); rewrite E; reflexivity).
  assert (Hl : l = take (lead p l) l ++ a :: rest)
    by (rewrite <- E; symmetry; apply take_drop).
  assert (Hr : (lead p (rev l) <= length rest)%nat).
  { rewrite Hl at 1. rewrite rev_app_distr. cbn [rev]. rewrite <- app_assoc.
    cbn [app]. etransitivity; [apply lead_app_stop, Ha|].
    rewrite length_rev. lia. }
  apply (f_equal length) in E. rewrite length_drop in E. cbn in E. lia.
Qed.

Lemma lead_head_stop (l : list A) (a : A) :
  head l = Some a -> p a = false -> lead p l = 0%nat.
Proof. destruct l; cbn; [discriminate|]. intros [= ->] ->. reflexivity. Qed.
End Lead.

Lemma lead_map {A B} (f : A -> B) (p : B -> bool) (l : list A) :
  lead p (map f l) = lead (fun a => p (f a)) l.
Proof. induction l as [|a l IH]; cbn; [reflexivity|]. rewrite IH. reflexivity. Qed.

Lemma lead_ext_Forall {A} (p q : A -> bool) (l : list A) :
  Forall (fun a => p a = q a) l -> lead p l = lead q l.
Proof.
  induction 1 as [|a l E _ IH]; cbn; [reflexivity|]. rewrite E, IH. reflexivity.
Qed.

(** The emptiness of the frames of a history, read from the store or from
    the list of integer masses, gives the same runs. *)
Lemma lead_denotes (s : store) (h : list loc) (rs : list Region) :
  denotes s h rs ->
  lead empty_mass (map (fun bound => py_int (Region.mass bound)) rs)
  = lead (frame_empty s) h.
Proof.
  induction 1 as [|l r h rs Hl _ IH]; cbn; [reflexivity|].
  unfold frame_empty at 1. rewrite Hl, IH. reflexivity.
Qed.

Lemma denotes_rev (s : store) (h : list loc) (rs : list Region) :
  denotes s h rs -> denotes s (rev h) (rev rs).
Proof.
  induction 1 as [|l r h rs Hl _ IH]; cbn; [constructor|].
  apply Forall2_app; [exact IH|]. constructor; [exact Hl|constructor].
Qed.

(** ** The loops of [trim] *)

Lemma start_cond_in (l1 l2 : list Z) (m : Z) (s : store) :
  start_cond (len (l1 ++ m :: l2)) (l1 ++ m :: l2) (len l1) s
  = Ok (empty_mass m, s).
Proof.
  unfold start_cond. rewrite len_app.
  assert (0 < len (m :: l2)) by (unfold len; cbn; lia). zbool.
  rewrite (bind_ok _ _ _ _ _ (getitem_middle l1 l2 m s)). reflexivity.
Qed.

Lemma start_cond_out (l : list Z) (s : store) :
  start_cond (len l) l (len l) s = Ok (false, s).
Proof. unfold start_cond. zbool. reflexivity. Qed.

Lemma while_start (l2 l1 : list Z) (fuel : nat) (s : store) :
  (length l2 < fuel)%nat ->
  while fuel (start_cond (len (l1 ++ l2)) (l1 ++ l2))
        (fun start => ret (start + 1)) (len l1) s
  = Ok (len l1 + Z.of_nat (lead empty_mass l2), s).
Proof.
  revert l1 fuel. induction l2 as [|m l2 IH]; intros l1 fuel Hf;
    (destruct fuel as [|fuel]; [cbn in Hf; lia|]); cbn [while lead].
  - rewrite app_nil_r. rewrite (bind_ok _ _ _ _ _ (start_cond_out l1 s)).
    cbn. rewrite Z.add_0_r. reflexivity.
  - rewrite (bind_ok _ _ _ _ _ (start_cond_in l1 l2 m s)).
    destruct (empty_mass m).
    + unfold bind at 1. cbn [ret].
      replace (len l1 + 1) with (len (l1 ++ [m]))
        by (rewrite len_app; reflexivity).
      replace (l1 ++ m :: l2) with ((l1 ++ [m]) ++ l2)
        by (rewrite <- app_assoc; reflexivity).
      rewrite IH by (cbn in Hf; lia). rewrite len_app.
      f_equal. f_equal. unfold len. cbn [length]. lia.
    + cbn. rewrite Z.add_0_r. reflexivity.
Qed.

Lemma end_cond_in (l1 l2 : list Z) (m : Z) (s : store) :
  0 < len l1 -> end_cond (l1 ++ m :: l2) (len l1) s = Ok (empty_mass m, s).
Proof.
  intros H. unfold end_cond. zbool.
  rewrite (bind_ok _ _ _ _ _ (getitem_middle l1 l2 m s)). reflexivity.
Qed.

Lemma end_cond_out (l : list Z) (e : Z) (s : store) :
  e <= 0 -> end_cond l e s = Ok (false, s).
Proof. intros H. unfold end_cond. zbool. reflexivity. Qed.

Lemma end_of_snoc (l : list Z) (m : Z) :
  end_of (l ++ [m])
  = Z.max 0 (len l - Z.of_nat (lead empty_mass (m :: rev l))).
Proof.
  unfold end_of. destruct (l ++ [m]) eqn:E; [destruct l; discriminate|].
  rewrite <- E. rewrite rev_app_distr. cbn [rev app]. rewrite len_app.
  f_equal. unfold len. cbn [length]. lia.
Qed.

Lemma while_end (l1 l2 : list Z) (fuel : nat) (s : store) :
  (length l1 < fuel)%nat ->
  while fuel (end_cond (l1 ++ l2)) (fun end_ => ret (end_ - 1)) (len l1 - 1) s
  = Ok (end_of l1, s).
Proof.
  revert l2 fuel. induction l1 as [|m l1 IH] using rev_ind; intros l2 fuel Hf;
    (destruct fuel as [|fuel]; [cbn in Hf; lia|]); cbn [while].
  - reflexivity.
  - rewrite length_app in Hf. cbn in Hf.
    replace (len (l1 ++ [m]) - 1) with (len l1)
      by (rewrite len_app; unfold len; cbn; lia).
    rewrite end_of_snoc. cbn [lead]. pose proof (len_nonneg l1) as Hn.
    rewrite <- app_assoc. cbn [app].
    destruct (Z.eq_dec (len l1) 0) as [Hz|Hz].
    + rewrite (bind_ok _ _ _ _ _ (end_cond_out _ _ s (Z.eq_le_incl _ _ Hz))).
      unfold ret. f_equal. f_equal. destruct (empty_mass m); lia.
    + rewrite (bind_ok _ _ _ _ _ (end_cond_in l1 l2 m s ltac:(lia))).
      destruct (empty_mass m).
      * unfold bind at 1. cbn [ret]. rewrite IH by lia. f_equal. f_equal.
        unfold end_of. destruct l1 as [|a l1]; [contradiction Hz; reflexivity|].
        lia.
      * unfold ret. f_equal. f_equal. lia.
Qed.

Lemma slice_bound_in {A} (l : list A) (i : Z) :
  0 <= i <= len l -> slice_bound l i = Z.to_nat i.
Proof. intros H. unfold slice_bound. zbool. lia. Qed.

Lemma slice_in {A} (l : list A) (a b : nat) :
  (a <= length l)%nat -> (b <= length l)%nat ->
  slice l (Z.of_nat a) (Z.of_nat b) = take (b - a) (drop a l).
Proof.
  intros Ha Hb. unfold slice.
  rewrite !slice_bound_in by (unfold len; lia). rewrite !Nat2Z.id.
  reflexivity.
Qed.

(** ** trim *)

Lemma trim_fuel_loops (fuel : nat) (t : Track) :
  trim_fuel fuel t
  = (do mass_history <-
       mapM (attr (fun bound => py_int (Region.mass bound))) (bounds_history t);
     do start <-
       while fuel (start_cond (len (bounds_history t)) mass_history)
             (fun start => ret (start + 1)) 0;
     do end_ <-
       while fuel (end_cond mass_history) (fun end_ => ret (end_ - 1))
             (len (bounds_history t) - 1);
     if end_ <? start then
       ret (set_bounds_history [] (set_start_frame 0 t))
     else
       let t := set_start_frame (start_frame t + start) t in
       ret (set_bounds_history (slice (bounds_history t) start (end_ + 1)) t)).
Proof. reflexivity. Qed.

(** With one unit of fuel more than the history has entries, [trim] returns,
    leaves the store as it was, and computes [trimmed]. *)
Lemma trim_fuel_eval (fuel : nat) (t : Track) (s : store) (rs : list Region) :
  denotes s (bounds_history t) rs ->
  (length (bounds_history t) < fuel)%nat ->
  trim_fuel fuel t s = Ok (trimmed (frame_empty s) t, s).
Proof.
  intros Hd Hfuel. rewrite trim_fuel_loops.
  set (mh := map (fun bound => py_int (Region.mass bound)) rs).
  assert (Hlen : length mh = length (bounds_history t)).
  { unfold mh. rewrite length_map. symmetry. eapply denotes_length, Hd. }
  assert (Ha : lead empty_mass mh = lead (frame_empty s) (bounds_history t))
    by (apply lead_denotes, Hd).
  assert (Hb : lead empty_mass (rev mh)
               = lead (frame_empty s) (rev (bounds_history t))).
  { unfold mh. rewrite <- map_rev. apply lead_denotes, denotes_rev, Hd. }
  rewrite (bind_ok _ _ _ _ _ (mapM_attr _ s _ rs Hd)). fold mh.
  replace (len (bounds_history t)) with (len mh) by (unfold len; congruence).
  pose proof (while_start mh [] fuel s ltac:(lia)) as Hs.
  cbn [app] in Hs. change (len []) with 0 in Hs.
  rewrite (bind_ok _ _ _ _ _ Hs). clear Hs.
  pose proof (while_end mh [] fuel s ltac:(lia)) as He.
  rewrite app_nil_r in He. rewrite (bind_ok _ _ _ _ _ He). clear He.
  unfold trimmed. rewrite <- Ha, <- Hb, <- Hlen.
  pose proof (lead_le empty_mass mh) as Hle.
  destruct (Nat.eqb_spec (lead empty_mass mh) (length mh)) as [Hall|Hsome].
  - assert (end_of mh < 0 + Z.of_nat (lead empty_mass mh)) as Hlt.
    { unfold end_of. destruct mh as [|m mh']; [cbn; lia|].
      rewrite Hall. unfold len. cbn [length]. lia. }
    apply Z.ltb_lt in Hlt. rewrite Hlt. reflexivity.
  - pose proof (lead_rev_disjoint empty_mass mh ltac:(lia)) as Hdis.
    assert (Hend : end_of mh
                   = len mh - 1 - Z.of_nat (lead empty_mass (rev mh))).
    { unfold end_of. destruct mh as [|m mh']; [cbn in Hsome; lia|].
      unfold len in *. cbn [length] in *. lia. }
    rewrite Hend.
    replace (len mh - 1 - Z.of_nat (lead empty_mass (rev mh))
             <? 0 + Z.of_nat (lead empty_mass mh)) with false
      by (symmetry; apply Z.ltb_ge; unfold len; lia).
    cbn zeta. unfold ret. f_equal. f_equal.
    rewrite Z.add_0_l. f_equal.
    replace (len mh - 1 - Z.of_nat (lead empty_mass (rev mh)) + 1)
      with (Z.of_nat (length mh - lead empty_mass (rev mh)))
      by (unfold len; lia).
    cbn [bounds_history set_start_frame].
    rewrite slice_in by lia. f_equal. lia.
Qed.

Lemma trim_eval (t : Track) (s : store) (rs : list Region) :
  denotes s (bounds_history t) rs ->
  trim t s = Ok (trimmed (frame_empty s) t, s).
Proof. intros Hd. apply (trim_fuel_eval _ t s rs Hd). lia. Qed.

Lemma head_rev {A} (l : list A) : head (rev l) = last l.
Proof.
  induction l as [|a l _] using rev_ind; [reflexivity|].
  rewrite rev_app_distr, last_snoc. reflexivity.
Qed.

Section Strip.
Context {A : Type} (p : A -> bool).

(** Removing the leading and the trailing run of a list in which some
    element fails [p]: what is removed satisfies [p], what is kept starts
    and ends with an element that fails it. *)
Lemma strip_spec (l : list A) :
  let a := lead p l in
  let b := lead p (rev l) in
  let kept := take (length l - a - b) (drop a l) in
  let back := drop (length l - a - b) (drop a l) in
  (a < length l)%nat ->
  l = take a l ++ kept ++ back
  /\ Forall (fun x => p x = true) (take a l)
  /\ Forall (fun x => p x = true) back
  /\ (forall x, head kept = Some x -> p x = false)
  /\ (forall x, last kept = Some x -> p x = false).
Proof.
  intros a b kept back Ha.
  pose proof (lead_rev_disjoint p l Ha) as Hdis. fold a b in Hdis.
  assert (Hl : l = take a l ++ kept ++ back).
  { unfold kept, back. rewrite take_drop, take_drop. reflexivity. }
  assert (Hback : back = rev (take b (rev l))).
  { unfold back. rewrite drop_drop, firstn_rev, rev_involutive.
    f_equal. lia. }
  assert (Hkept : length kept = (length l - a - b)%nat).
  { unfold kept. rewrite length_take, length_drop. lia. }
  split; [exact Hl|]. split; [apply lead_take|]. split; [|split].
  - rewrite Hback. apply Forall_rev, lead_take.
  - intros x Hx. apply (lead_drop p l). fold a.
    unfold kept in Hx. destruct (drop a l) as [|y l'] eqn:E.
    + rewrite take_nil in Hx. discriminate.
    + destruct (length l - a - b)%nat eqn:Ek; [lia|]. exact Hx.
  - intros x Hx. apply (lead_drop p (rev l)). fold b.
    rewrite skipn_rev, head_rev.
    replace (take (length l - b) l) with (take a l ++ kept).
    + rewrite last_app, Hx. reflexivity.
    + rewrite Hl at 3. rewrite app_assoc.
      rewrite take_app_length'; [reflexivity|].
      rewrite length_app, length_take, Hkept. lia.
Qed.

(** A list that starts and ends with an element failing [p] has no run
    to remove. *)
Lemma lead_stripped (l : list A) (x y : A) :
  head l = Some x -> p x = false -> last l = Some y -> p y = false ->
  lead p l = 0%nat /\ lead p (rev l) = 0%nat.
Proof.
  intros Hx Px Hy Py. split; [eapply lead_head_stop; eassumption|].
  eapply lead_head_stop; [rewrite head_rev|]; eassumption.
Qed.
End Strip.

(** [trim] changes the start frame and the history only. *)
Lemma trimmed_frame (p : loc -> bool) (t : Track) :
  id (trimmed p t) = id t
  /\ frames_since_target_seen (trimmed p t) = frames_since_target_seen t
  /\ vel_x (trimmed p t) = vel_x t /\ vel_y (trimmed p t) = vel_y t
  /\ tag (trimmed p t) = tag t.
Proof. unfold trimmed. destruct (_ =? _)%nat; repeat split. Qed.

(** C7: [trim] removes exactly the longest leading run and the longest
    trailing run of frames whose integer mass is at most 2: the history
    splits into a removed front, the kept part and a removed back; every
    frame of the front and of the back is empty, and the kept part, when
    it has entries, starts and ends with a frame that is not empty.  The
    start frame advances by the length of the front; when every frame is
    empty the history is cleared and the start frame reset to 0. *)
Theorem trim_removes_empty_runs (t : Track) (s : store) (rs : list Region)
    (Hd : denotes s (bounds_history t) rs) :
  exists front kept back t',
    trim t s = Ok (t', s)
    /\ bounds_history t = front ++ kept ++ back
    /\ Forall (fun l => frame_empty s l = true) front
    /\ Forall (fun l => frame_empty s l = true) back
    /\ (forall l, head kept = Some l -> frame_empty s l = false)
    /\ (forall l, last kept = Some l -> frame_empty s l = false)
    /\ bounds_history t' = kept
    /\ (Forall (fun l => frame_empty s l = true) (bounds_history t) ->
        kept = [] /\ start_frame t' = 0)
    /\ (~ Forall (fun l => frame_empty s l = true) (bounds_history t) ->
        start_frame t' = start_frame t + len front).
Proof.
  pose proof (trim_eval t s rs Hd) as He. unfold trimmed in He.
  set (p := frame_empty s) in *. set (h := bounds_history t) in *.
  pose proof (lead_le p h) as Hle.
  destruct (Nat.eqb_spec (lead p h) (length h)) as [Hall|Hsome].
  - exists h, [], [], (set_bounds_history [] (set_start_frame 0 t)).
    apply lead_all in Hall.
    split; [exact He|]. split; [rewrite !app_nil_r; reflexivity|].
    split; [exact Hall|]. split; [constructor|].
    split; [discriminate|]. split; [discriminate|]. split; [reflexivity|].
    split; [split; reflexivity|]. intros Hn. contradiction.
  - destruct (strip_spec p h ltac:(lia)) as (Hl & Hf & Hb & Hh & Hlast).
    eexists _, _, _, _. split; [exact He|]. split; [exact Hl|].
    split; [exact Hf|]. split; [exact Hb|]. split; [exact Hh|].
    split; [exact Hlast|]. split; [reflexivity|]. split.
    + intros Hall. apply lead_all in Hall. contradiction.
    + intros _. cbn. unfold len. rewrite length_take. f_equal. f_equal. lia.
Qed.

Lemma trimmed_idempotent (p : loc -> bool) (t : Track) :
  trimmed p (trimmed p t) = trimmed p t.
Proof.
  set (h := bounds_history t).
  pose proof (lead_le p h) as Hle.
  destruct (Nat.eqb_spec (lead p h) (length h)) as [Hall|Hsome].
  - assert (E : trimmed p t = set_bounds_history [] (set_start_frame 0 t)).
    { unfold trimmed. fold h. apply Nat.eqb_eq in Hall. rewrite Hall.
      reflexivity. }
    rewrite E. reflexivity.
  - destruct (strip_spec p h ltac:(lia)) as (Hl & _ & _ & Hh & Hlast).
    set (kept := take (length h - lead p h - lead p (rev h))
                      (drop (lead p h) h)) in *.
    assert (E : trimmed p t
                = set_bounds_history kept
                    (set_start_frame (start_frame t + Z.of_nat (lead p h)) t)).
    { unfold trimmed. fold h. apply Nat.eqb_neq in Hsome. rewrite Hsome.
      reflexivity. }
    assert (Hk : (0 < length kept)%nat).
    { pose proof (lead_rev_disjoint p h ltac:(lia)).
      unfold kept. rewrite length_take, length_drop. lia. }
    destruct (head kept) as [x|] eqn:Ex;
      [|destruct kept; [cbn in Hk; lia|discriminate]].
    destruct (last kept) as [y|] eqn:Ey;
      [|apply last_None in Ey; rewrite Ey in Hk; cbn in Hk; lia].
    destruct (lead_stripped p kept x y Ex (Hh x eq_refl) Ey (Hlast y eq_refl))
      as [H0 H0r].
    rewrite E. unfold trimmed.
    cbn [bounds_history set_bounds_history set_start_frame start_frame].
    rewrite H0, H0r.
    destruct (Nat.eqb_spec 0 (length kept)) as [Hz|_]; [lia|].
    unfold set_bounds_history, set_start_frame. cbn.
    rewrite !Nat.sub_0_r, drop_0, firstn_all. change (Z.of_nat 0) with 0.
    rewrite Z.add_0_r. reflexivity.
Qed.

Lemma trimmed_denotes (s : store) (t : Track) (rs : list Region)
    (p : loc -> bool) :
  denotes s (bounds_history t) rs ->
  exists rs1, denotes s (bounds_history (trimmed p t)) rs1.
Proof.
  intros Hd. unfold trimmed. destruct (_ =? _)%nat.
  - exists []. constructor.
  - eexists. cbn. apply Forall2_take, Forall2_drop, Hd.
Qed.

(** C8: [trim] is idempotent: run on the track it returns, it returns that
    track again. *)
Theorem trim_idempotent (t : Track) (s : store) (rs : list Region)
    (Hd : denotes s (bounds_history t) rs) :
  exists t1,
    trim t s = Ok (t1, s)
    /\ trim t1 s = Ok (t1, s).
Proof.
  exists (trimmed (frame_empty s) t). split; [exact (trim_eval t s rs Hd)|].
  destruct (trimmed_denotes s t rs (frame_empty s) Hd) as [rs1 Hd1].
  rewrite (trim_eval _ s rs1 Hd1), trimmed_idempotent. reflexivity.
Qed.

Lemma store5_denotes : denotes store5 (bounds_history track5) (objs store5).
Proof. repeat constructor. Qed.

(** The scenario of masses 1, 1, 50, 50, 1: the first two frames and the
    last one go, and the start frame advances by 2. *)
Example trim_track5 :
  trim track5 store5
  = Ok (mkTrack (PyInt 1) (Some 2) 2 [2; 3]%nat 0 1 0 "unknown", store5).
Proof. reflexivity. Qed.

Lemma trim_removes_empty_runs_witness :
  denotes store5 (bounds_history track5) (objs store5)
  /\ exists front kept back t',
       trim track5 store5 = Ok (t', store5)
       /\ bounds_history track5 = front ++ kept ++ back
       /\ bounds_history t' = kept.
Proof.
  split; [exact store5_denotes|].
  destruct (trim_removes_empty_runs track5 store5 (objs store5) store5_denotes)
    as (front & kept & back & t' & H1 & H2 & _ & _ & _ & _ & H3 & _).
  exists front, kept, back, t'. auto.
Defined.

Lemma trim_idempotent_witness :
  denotes store5 (bounds_history track5) (objs store5)
  /\ exists t1, trim track5 store5 = Ok (t1, store5)
       /\ trim t1 store5 = Ok (t1, store5).
Proof.
  split; [exact store5_denotes|].
  exact (trim_idempotent track5 store5 (objs store5) store5_denotes).
Defined.

(** ** add_frame and add_blank_frame *)

Lemma getitem_last {A} (l : list A) (a : A) (s : store) :
  getitem (l ++ [a]) (-1) s = Ok (a, s).
Proof.
  apply (getitem_from_end (l ++ [a]) 0 a s);
    rewrite length_app; cbn [length]; [lia|].
  replace (length l + 1 - 1)%nat with (length l) by lia.
  apply list_lookup_middle. reflexivity.
Qed.

Lemma getitem_last2 {A} (l : list A) (a b : A) (s : store) :
  getitem (l ++ [b; a]) (-2) s = Ok (b, s).
Proof.
  apply (getitem_from_end (l ++ [b; a]) 1 b s);
    rewrite length_app; cbn [length]; [lia|].
  replace (length l + 2 - 2)%nat with (length l) by lia.
  apply list_lookup_middle. reflexivity.
Qed.

Lemma getitem_empty {A} (i : Z) (s : store) :
  getitem (@nil A) i s = Raise IndexError.
Proof.
  unfold getitem. change (len []) with 0.
  destruct (i <? 0) eqn:E.
  - apply Z.ltb_lt in E. zbool. reflexivity.
  - apply Z.ltb_ge in E. zbool. rewrite andb_false_r. reflexivity.
Qed.

(** A copy is a new object: the objects already there are as before. *)
Lemma copy_ok (l : loc) (r : Region) (s : store) :
  objs s !! l = Some r ->
  copy l s = Ok (length (objs s), mkStore (objs s ++ [r]) (cls_track_id s)).
Proof. intros H. unfold copy, bind, load. rewrite H. reflexivity. Qed.

Lemma modify_fresh (rs : list Region) (r : Region) (c : Z)
    (f : Region -> Region) :
  modify (length rs) f (mkStore (rs ++ [r]) c)
  = Ok (tt, mkStore (rs ++ [f r]) c).
Proof.
  unfold modify. cbn [objs cls_track_id].
  rewrite list_lookup_middle by reflexivity.
  rewrite insert_app_r_alt by lia. rewrite Nat.sub_diag. reflexivity.
Qed.

Lemma attr_fresh {A} (g : Region -> A) (rs : list Region) (r : Region)
    (c : Z) :
  attr g (length rs) (mkStore (rs ++ [r]) c)
  = Ok (g r, mkStore (rs ++ [r]) c).
Proof. apply attr_ok. cbn. apply list_lookup_middle. reflexivity. Qed.

(** Objects that a history refers to stay in place when the store grows. *)
Lemma denotes_grow (s : store) (h : list loc) (rs extra : list Region)
    (c : Z) :
  denotes s h rs -> denotes (mkStore (objs s ++ extra) c) h rs.
Proof.
  intros H. eapply Forall2_impl; [exact H|].
  intros l r Hl. cbn. rewrite lookup_app_l; [exact Hl|].
  eapply lookup_lt_Some, Hl.
Qed.

Lemma denotes_snoc (s : store) (h : list loc) (rs : list Region)
    (r : Region) (c : Z) :
  denotes s h rs ->
  denotes (mkStore (objs s ++ [r]) c) (h ++ [length (objs s)]) (rs ++ [r]).
Proof.
  intros H. apply Forall2_app; [apply denotes_grow, H|].
  constructor; [|constructor]. cbn. apply list_lookup_middle. reflexivity.
Qed.

Lemma denotes_fresh (s : store) (h : list loc) (rs : list Region) :
  denotes s h rs -> length (objs s) ∉ h.
Proof.
  intros H Hin. apply list_elem_of_lookup in Hin as [i Hi].
  destruct (denotes_lookup s h rs i _ H Hi) as (r & _ & Hr).
  apply lookup_lt_Some in Hr. lia.
Qed.

Lemma add_blank_frame_eval (t : Track) (s : store) (h : list loc) (b : loc)
    (r : Region) :
  bounds_history t = h ++ [b] ->
  objs s !! b = Some r ->
  add_blank_frame t s
  = Ok (set_vel_x 0 (set_vel_y 0
          (set_bounds_history (bounds_history t ++ [length (objs s)]) t)),
        mkStore (objs s ++ [blank_of r]) (cls_track_id s)).
Proof.
  intros Hh Hb. unfold add_blank_frame, bounds.
  rewrite Hh at 1. rewrite (bind_ok _ _ _ _ _ (getitem_last h b s)).
  rewrite (bind_ok _ _ _ _ _ (copy_ok b r s Hb)).
  cbn [bounds_history set_bounds_history].
  rewrite (bind_ok _ _ _ _ _ (getitem_last _ _ _)).
  rewrite (bind_ok _ _ _ _ _ (modify_fresh _ _ _ _)).
  rewrite (bind_ok _ _ _ _ _ (getitem_last _ _ _)).
  rewrite (bind_ok _ _ _ _ _ (modify_fresh _ _ _ _)).
  rewrite (bind_ok _ _ _ _ _ (getitem_last _ _ _)).
  rewrite (bind_ok _ _ _ _ _ (attr_fresh _ _ _ _)).
  rewrite (bind_ok _ _ _ _ _ (modify_fresh _ _ _ _)).
  reflexivity.
Qed.

(** On a track without history the property [bounds] raises. *)
Lemma add_blank_frame_empty (t : Track) (s : store) :
  bounds_history t = [] -> add_blank_frame t s = Raise IndexError.
Proof.
  intros Hh. unfold add_blank_frame, bounds, bind. rewrite Hh.
  rewrite getitem_empty. reflexivity.
Qed.

(** C9: on a track with history, [add_blank_frame] appends a reference to
    a new object that has the position and size of the last region, mass
    0, pixel variance 0 and the frame index advanced by one; the velocity
    becomes (0, 0); [frames_since_target_seen], [start_frame], [id] and
    [tag] stay, and so does every earlier entry: the references are the
    same and denote the same regions in the new store. *)
Theorem add_blank_frame_appends_blank_copy (t : Track) (s : store)
    (rs : list Region) (r : Region)
    (Hd : denotes s (bounds_history t) rs) (Hlast : last rs = Some r) :
  exists t' s' c,
    add_blank_frame t s = Ok (t', s')
    /\ bounds_history t' = bounds_history t ++ [c]
    /\ (c ∉ bounds_history t)
    /\ objs s' !! c
       = Some (Region.mk (Region.x r) (Region.y r) (Region.width r)
                         (Region.height r) 0 0 (Region.frame_index r + 1))
    /\ vel_x t' = 0%Q /\ vel_y t' = 0%Q
    /\ frames_since_target_seen t' = frames_since_target_seen t
    /\ start_frame t' = start_frame t
    /\ id t' = id t
    /\ tag t' = tag t
    /\ denotes s' (bounds_history t) rs.
Proof.
  destruct rs as [|r' rs' _] using rev_ind; [discriminate|].
  rewrite last_snoc in Hlast. injection Hlast as ->.
  pose proof Hd as Hd'.
  apply Forall2_app_inv_r in Hd' as (h & hb & Hh & Hb & Heq).
  inversion Hb as [|b ? ? ? Hbr Hnil]; subst. inversion Hnil; subst.
  exists (set_vel_x 0 (set_vel_y 0
            (set_bounds_history (bounds_history t ++ [length (objs s)]) t))),
         (mkStore (objs s ++ [blank_of r]) (cls_track_id s)),
         (length (objs s)).
  split; [exact (add_blank_frame_eval t s h b r Heq Hbr)|].
  split; [reflexivity|]. split; [exact (denotes_fresh s _ _ Hd)|].
  split; [cbn; apply list_lookup_middle; reflexivity|].
  repeat (split; [reflexivity|]).
  apply denotes_grow, Hd.
Qed.

Lemma add_blank_frame_appends_blank_copy_witness :
  denotes store5 (bounds_history track5) (objs store5)
  /\ last (objs store5) = Some (box 4 0 10 10 1)
  /\ exists t' s' c,
       add_blank_frame track5 store5 = Ok (t', s')
       /\ bounds_history t' = bounds_history track5 ++ [c]
       /\ objs s' !! c = Some (Region.mk 4 0 10 10 0 0 1).
Proof.
  split; [exact store5_denotes|]. split; [reflexivity|].
  destruct (add_blank_frame_appends_blank_copy track5 store5 (objs store5)
              (box 4 0 10 10 1) store5_denotes eq_refl)
    as (t' & s' & c & H1 & H2 & _ & H3 & _).
  exists t', s', c. auto.
Defined.

Lemma velocity_of_snoc2 (rs : list Region) (r2 r1 : Region) :
  velocity_of (rs ++ [r2; r1])
  = ((mid_x r1 - mid_x r2)%Q, (mid_y r1 - mid_y r2)%Q).
Proof. unfold velocity_of. rewrite rev_app_distr. reflexivity. Qed.

Lemma add_frame_eval (t : Track) (s : store) (rs : list Region)
    (region : loc) (r : Region) :
  denotes s (bounds_history t) rs ->
  objs s !! region = Some r ->
  add_frame t region s
  = Ok (set_vel_y (snd (velocity_of (rs ++ [r])))
          (set_vel_x (fst (velocity_of (rs ++ [r])))
             (set_frames_since_target_seen 0
                (set_bounds_history
                   (bounds_history t ++ [length (objs s)]) t))),
        mkStore (objs s ++ [r]) (cls_track_id s)).
Proof.
  intros Hd Hr. unfold add_frame.
  rewrite (bind_ok _ _ _ _ _ (copy_ok region r s Hr)).
  cbn [bounds_history set_bounds_history set_frames_since_target_seen
       set_vel_x].
  destruct rs as [|r2 rs _] using rev_ind.
  - inversion Hd as [Hh|]. cbn. reflexivity.
  - pose proof Hd as Hd'.
    apply Forall2_app_inv_r in Hd' as (h & hb & Hh & Hb & Heq).
    inversion Hb as [|b ? ? ? Hbr Hnil]; subst. inversion Hnil; subst.
    rewrite Heq. rewrite <- !app_assoc. cbn [app].
    rewrite velocity_of_snoc2. cbn [fst snd].
    replace (2 <=? len (h ++ [b; length (objs s)])) with true
      by (symmetry; apply Z.leb_le; rewrite len_app; unfold len; cbn; lia).
    assert (Hb' : objs (mkStore (objs s ++ [r]) (cls_track_id s)) !! b
                  = Some r2).
    { cbn. rewrite lookup_app_l; [exact Hbr|]. eapply lookup_lt_Some, Hbr. }
    replace (h ++ [b; length (objs s)]) with ((h ++ [b]) ++ [length (objs s)])
      by (rewrite <- app_assoc; reflexivity).
    rewrite (bind_ok _ _ _ _ _ (getitem_last _ _ _)).
    rewrite (bind_ok _ _ _ _ _ (attr_fresh _ _ _ _)).
    rewrite <- app_assoc. cbn [app].
    rewrite (bind_ok _ _ _ _ _ (getitem_last2 _ _ _ _)).
    rewrite (bind_ok _ _ _ _ _ (attr_ok _ _ _ _ Hb')).
    replace (h ++ [b; length (objs s)]) with ((h ++ [b]) ++ [length (objs s)])
      by (rewrite <- app_assoc; reflexivity).
    rewrite (bind_ok _ _ _ _ _ (getitem_last _ _ _)).
    rewrite (bind_ok _ _ _ _ _ (attr_fresh _ _ _ _)).
    rewrite <- app_assoc. cbn [app].
    rewrite (bind_ok _ _ _ _ _ (getitem_last2 _ _ _ _)).
    rewrite (bind_ok _ _ _ _ _ (attr_ok _ _ _ _ Hb')).
    reflexivity.
Qed.

(** ** smooth *)

Lemma smooth_loop_form (t : Track) (frame_bounds : Rectangle) :
  smooth t frame_bounds
  = (let h := bounds_history t in
     if len h =? 0 then ret t
     else
       do prev_frame <- getitem h 0;
       do current_frame <- getitem h 0;
       do next_frame <- getitem h 1;
       do new_bounds_history <-
         forM (range 0 (len h)) (smooth_body h frame_bounds) [];
       ret (set_bounds_history new_bounds_history t)).
Proof. reflexivity. Qed.

Lemma smooth_body_eval (h : list loc) (fb : Rectangle) (acc : list loc)
    (i : nat) (s : store) (lp lc ln : loc) (p c n : Region) :
  h !! (i - 1)%nat = Some lp ->
  h !! i = Some lc ->
  h !! (Nat.min (length h - 1) (i + 1)) = Some ln ->
  objs s !! lp = Some p -> objs s !! lc = Some c -> objs s !! ln = Some n ->
  smooth_body h fb acc (Z.of_nat i) s
  = Ok (acc ++ [length (objs s)],
        mkStore (objs s ++ [smooth_frame fb p c n]) (cls_track_id s)).
Proof.
  intros Hp Hc Hn Op Oc On. unfold smooth_body.
  pose proof (lookup_lt_Some _ _ _ Hc) as Hlt.
  assert (Gp : getitem h (Z.max 0 (Z.of_nat i - 1)) s = Ok (lp, s)).
  { apply getitem_ok; [lia|].
    replace (Z.to_nat (Z.max 0 (Z.of_nat i - 1))) with (i - 1)%nat by lia.
    exact Hp. }
  assert (Gc : getitem h (Z.of_nat i) s = Ok (lc, s)).
  { apply getitem_ok; [lia|]. rewrite Nat2Z.id. exact Hc. }
  assert (Gn : getitem h (Z.min (len h - 1) (Z.of_nat i + 1)) s = Ok (ln, s)).
  { apply getitem_ok; [unfold len; lia|].
    replace (Z.to_nat (Z.min (len h - 1) (Z.of_nat i + 1)))
      with (Nat.min (length h - 1) (i + 1)) by (unfold len; lia).
    exact Hn. }
  rewrite (bind_ok _ _ _ _ _ Gp), (bind_ok _ _ _ _ _ Gc),
    (bind_ok _ _ _ _ _ Gn).
  rewrite (bind_ok _ _ _ _ _ (attr_ok _ _ _ _ Oc)).
  rewrite (bind_ok _ _ _ _ _ (attr_ok _ _ _ _ Oc)).
  rewrite (bind_ok _ _ _ _ _ (attr_ok _ _ _ _ Op)).
  rewrite (bind_ok _ _ _ _ _ (attr_ok _ _ _ _ Oc)).
  rewrite (bind_ok _ _ _ _ _ (attr_ok _ _ _ _ On)).
  rewrite (bind_ok _ _ _ _ _ (attr_ok _ _ _ _ Op)).
  rewrite (bind_ok _ _ _ _ _ (attr_ok _ _ _ _ Oc)).
  rewrite (bind_ok _ _ _ _ _ (attr_ok _ _ _ _ On)).
  cbn zeta. unfold alloc at 1. unfold bind at 1.
  rewrite (bind_ok _ _ _ _ _ (modify_fresh _ _ _ _)). reflexivity.
Qed.

Lemma range_from_zero (n : nat) :
  range 0 (Z.of_nat n) = map Z.of_nat (seq 0 n).
Proof.
  unfold range. rewrite Z.sub_0_r, Nat2Z.id. apply map_ext. intros k. lia.
Qed.

(** The loop from the frame after [h1] on: each iteration creates one
    object, the smoothed frame, behind those already created. *)
Lemma smooth_loop (fb : Rectangle) (c : Z) (s : store) (h2 : list loc) :
  forall (h1 : list loc) (rs1 rs2 extra : list Region) (acc : list loc)
         (lprev : loc) (prev : Region),
    denotes s (h1 ++ h2) (rs1 ++ rs2) ->
    length h1 = length rs1 ->
    (h1 ++ h2) !! (length h1 - 1)%nat = Some lprev ->
    objs s !! lprev = Some prev ->
    forM (map Z.of_nat (seq (length h1) (length h2)))
         (smooth_body (h1 ++ h2) fb) acc (mkStore (objs s ++ extra) c)
    = Ok (acc ++ map (fun k => (length (objs s) + length extra + k)%nat)
                     (seq 0 (length h2)),
          mkStore (objs s ++ extra ++ smoothed_from fb prev rs2) c).
Proof.
  induction h2 as [|lc h2 IH]; intros h1 rs1 rs2 extra acc lprev prev
    Hd Hlen Hprev Oprev.
  - apply Forall2_length in Hd. rewrite !length_app, Hlen in Hd.
    destruct rs2; [|cbn in Hd; lia]. cbn. rewrite !app_nil_r. reflexivity.
  - pose proof Hd as Hd'.
    apply Forall2_app_inv_l in Hd' as (rs1' & rs2' & Hd1 & Hd2 & Heq).
    assert (rs1' = rs1 /\ rs2' = rs2) as [-> ->].
    { apply app_inj_1; [|now symmetry].
      apply Forall2_length in Hd1. congruence. }
    inversion Hd2 as [|? cur ? rs2t Ocur Hd2t]; subst. clear Heq.
    cbn [length seq map forM smoothed_from].
    assert (Hc : (h1 ++ lc :: h2) !! length h1 = Some lc)
      by (apply list_lookup_middle; reflexivity).
    assert (Hn : exists ln,
               (h1 ++ lc :: h2)
                 !! Nat.min (length (h1 ++ lc :: h2) - 1) (length h1 + 1)
               = Some ln
               /\ objs s !! ln = Some (hd cur rs2t)).
    { destruct h2 as [|ln h2t].
      - inversion Hd2t; subst. exists lc. rewrite length_app. cbn [length hd].
        replace (Nat.min (length h1 + 1 - 1) (length h1 + 1))
          with (length h1) by lia.
        split; [exact Hc|exact Ocur].
      - inversion Hd2t as [|? nxt ? ? Onxt _]; subst. exists ln.
        rewrite length_app. cbn [length hd].
        replace (Nat.min (length h1 + S (S (length h2t)) - 1) (length h1 + 1))
          with (S (length h1)) by lia.
        split; [|exact Onxt].
        replace (h1 ++ lc :: ln :: h2t) with ((h1 ++ [lc]) ++ ln :: h2t)
          by (rewrite <- app_assoc; reflexivity).
        apply list_lookup_middle. rewrite length_app. cbn. lia. }
    destruct Hn as (ln & Hn & On).
    assert (Hgrow : forall l r, objs s !! l = Some r ->
                      objs (mkStore (objs s ++ extra) c) !! l = Some r).
    { intros l r Hl. cbn. rewrite lookup_app_l; [exact Hl|].
      eapply lookup_lt_Some, Hl. }
    rewrite (bind_ok _ _ _ _ _
               (smooth_body_eval _ fb acc (length h1) _ lprev lc ln
                  prev cur (hd cur rs2t) Hprev Hc Hn
                  (Hgrow _ _ Oprev) (Hgrow _ _ Ocur) (Hgrow _ _ On))).
    cbn [objs cls_track_id].
    replace (h1 ++ lc :: h2) with ((h1 ++ [lc]) ++ h2)
      by (rewrite <- app_assoc; reflexivity).
    replace (S (length h1)) with (length (h1 ++ [lc]))
      by (rewrite length_app; cbn; lia).
    rewrite <- (app_assoc (objs s) extra).
    rewrite (IH (h1 ++ [lc]) (rs1 ++ [cur]) rs2t
                (extra ++ [smooth_frame fb prev cur (hd cur rs2t)])
                _ lc cur).
    + f_equal. f_equal.
      * rewrite <- app_assoc. f_equal. cbn [app]. rewrite length_app.
        f_equal; [lia|].
        rewrite <- seq_shift, map_map. apply map_ext. intros k.
        rewrite !length_app. cbn [length]. lia.
      * rewrite <- !app_assoc. reflexivity.
    + rewrite <- !app_assoc. exact Hd.
    + rewrite !length_app. cbn. lia.
    + rewrite length_app. cbn [length].
      replace (length h1 + 1 - 1)%nat with (length h1) by lia.
      rewrite <- app_assoc. exact Hc.
    + exact Ocur.
Qed.

Lemma smooth_empty_noop (t : Track) (fb : Rectangle) (s : store) :
  bounds_history t = [] -> smooth t fb s = Ok (t, s).
Proof. intros H. unfold smooth. rewrite H. reflexivity. Qed.

(** With two entries or more, [smooth] returns: the history becomes the
    references of newly created objects, the smoothed regions. *)
Lemma smooth_eval (t : Track) (fb : Rectangle) (s : store)
    (rs : list Region) :
  denotes s (bounds_history t) rs ->
  (2 <= length (bounds_history t))%nat ->
  smooth t fb s
  = Ok (set_bounds_history
          (map (fun k => (length (objs s) + k)%nat)
               (seq 0 (length (bounds_history t)))) t,
        mkStore (objs s ++ smoothed fb rs) (cls_track_id s)).
Proof.
  intros Hd Hlen. rewrite smooth_loop_form. cbn zeta.
  destruct (bounds_history t) as [|l0 [|l1 h]] eqn:Eh; [cbn in Hlen; lia..|].
  rewrite <- Eh in *.
  assert (Hl : length (bounds_history t) = S (S (length h)))
    by (rewrite Eh; reflexivity).
  replace (len (bounds_history t) =? 0) with false
    by (symmetry; apply Z.eqb_neq; unfold len; lia).
  assert (G0 : getitem (bounds_history t) 0 s = Ok (l0, s))
    by (apply getitem_ok; [lia|rewrite Eh; reflexivity]).
  assert (G1 : getitem (bounds_history t) 1 s = Ok (l1, s))
    by (apply getitem_ok; [lia|rewrite Eh; reflexivity]).
  rewrite (bind_ok _ _ _ _ _ G0), (bind_ok _ _ _ _ _ G0),
    (bind_ok _ _ _ _ _ G1).
  unfold len. rewrite range_from_zero.
  destruct rs as [|r0 rs']; [rewrite Eh in Hd; inversion Hd|].
  assert (O0 : objs s !! l0 = Some r0)
    by (rewrite Eh in Hd; inversion Hd; assumption).
  pose proof (smooth_loop fb (cls_track_id s) s (bounds_history t)
                [] [] (r0 :: rs') [] [] l0 r0 Hd eq_refl
                ltac:(rewrite Eh; reflexivity) O0) as Hloop.
  cbn [app length] in Hloop. rewrite app_nil_r in Hloop.
  replace (mkStore (objs s) (cls_track_id s)) with s in Hloop
    by (destruct s; reflexivity).
  rewrite (bind_ok _ _ _ _ _ Hloop). unfold ret. f_equal. f_equal.
  f_equal. apply map_ext. intros k. lia.
Qed.

Lemma smoothed_from_length (fb : Rectangle) (l : list Region) :
  forall prev, length (smoothed_from fb prev l) = length l.
Proof. induction l as [|c l IH]; intros prev; cbn; [|rewrite IH]; reflexivity. Qed.

Lemma smoothed_length (fb : Rectangle) (rs : list Region) :
  length (smoothed fb rs) = length rs.
Proof. destruct rs; [reflexivity|]. apply smoothed_from_length. Qed.

Lemma smoothed_from_lookup (fb : Rectangle) (l : list Region) :
  forall (prev : Region) (i : nat) (p c n : Region),
    (prev :: l) !! i = Some p ->
    l !! i = Some c ->
    l !! Nat.min (length l - 1) (i + 1) = Some n ->
    smoothed_from fb prev l !! i = Some (smooth_frame fb p c n).
Proof.
  induction l as [|c0 l IH]; intros prev i p c n Hp Hc Hn; [discriminate|].
  destruct i as [|i].
  - cbn in Hp, Hc. injection Hp as ->. injection Hc as ->.
    cbn [smoothed_from]. cbn [lookup list_lookup]. do 2 f_equal.
    destruct l as [|c1 l]; cbn in Hn |- *;
      [|rewrite Nat.min_0_r in Hn; cbn in Hn]; inversion Hn; reflexivity.
  - cbn [smoothed_from]. change ((c0 :: l) !! i = Some p) in Hp.
    change (l !! i = Some c) in Hc.
    change (smoothed_from fb c0 l !! i = Some (smooth_frame fb p c n)).
    apply IH; [exact Hp|exact Hc|].
    pose proof (lookup_lt_Some _ _ _ Hc) as Hlt.
    cbn [length] in Hn.
    replace (Nat.min (S (length l) - 1) (S i + 1))
      with (S (Nat.min (length l - 1) (i + 1))) in Hn by lia.
    exact Hn.
Qed.

(** Entry [i] of the smoothed history is built from entry [i] and its
    clamped neighbours [max(0, i-1)] and [min(len-1, i+1)]. *)
Lemma smoothed_lookup (fb : Rectangle) (rs : list Region) (i : nat)
    (p c n : Region) :
  rs !! (i - 1)%nat = Some p ->
  rs !! i = Some c ->
  rs !! Nat.min (length rs - 1) (i + 1) = Some n ->
  smoothed fb rs !! i = Some (smooth_frame fb p c n).
Proof.
  intros Hp Hc Hn. destruct rs as [|r0 rs]; [discriminate|].
  unfold smoothed. apply smoothed_from_lookup; [|exact Hc|exact Hn].
  destruct i as [|i]; [exact Hp|].
  replace (S i - 1)%nat with i in Hp by lia. exact Hp.
Qed.

(** With exactly one entry, the assignment [next_frame =
    self.bounds_history[1]] before the loop is out of range. *)
Lemma smooth_single_raises (t : Track) (fb : Rectangle) (s : store)
    (l : loc) :
  bounds_history t = [l] -> smooth t fb s = Raise IndexError.
Proof.
  intros H. rewrite smooth_loop_form. rewrite H. reflexivity.
Qed.

(** C2 (the code departs from the claim): on a track whose history has
    exactly one entry, [smooth] does not succeed.  It raises [IndexError],
    and the history is not replaced. *)
Theorem smooth_one_entry_raises :
  exists t s,
    length (bounds_history t) = 1%nat
    /\ denotes s (bounds_history t) [box 3 4 10 10 50]
    /\ smooth t (Rectangle.mk 0 0 160 120) s = Raise IndexError.
Proof.
  exists (mkTrack (PyInt 1) (Some 2) 0 [0%nat] 0 0 0 "unknown"),
         (mkStore [box 3 4 10 10 50] 1).
  split; [reflexivity|]. split; [repeat constructor|].
  apply (smooth_single_raises _ _ _ 0%nat). reflexivity.
Qed.

(** ** Velocity *)

Lemma trim_keeps_velocity (t : Track) (s : store) (rs : list Region) :
  denotes s (bounds_history t) rs ->
  exists t', trim t s = Ok (t', s)
    /\ vel_x t' = vel_x t /\ vel_y t' = vel_y t.
Proof.
  intros Hd. eexists. split; [exact (trim_eval t s rs Hd)|].
  destruct (trimmed_frame (frame_empty s) t) as (_ & _ & Hx & Hy & _).
  split; assumption.
Qed.

Lemma smooth_keeps_velocity (t : Track) (fb : Rectangle) (s : store)
    (rs : list Region) :
  denotes s (bounds_history t) rs ->
  length rs <> 1%nat ->
  exists t' s', smooth t fb s = Ok (t', s')
    /\ vel_x t' = vel_x t /\ vel_y t' = vel_y t.
Proof.
  intros Hd Hlen. pose proof (denotes_length _ _ _ Hd) as Hl.
  destruct (bounds_history t) as [|l0 h] eqn:Eh.
  - exists t, s. split; [apply smooth_empty_noop, Eh|split; reflexivity].
  - rewrite <- Eh in *. eexists _, _. split.
    + apply (smooth_eval t fb s rs Hd). rewrite Eh in *. cbn in *. lia.
    + split; reflexivity.
Qed.

Lemma add_frame_velocity (t : Track) (s : store) (rs : list Region)
    (region : loc) (r : Region) :
  denotes s (bounds_history t) rs ->
  objs s !! region = Some r ->
  exists t' s', add_frame t region s = Ok (t', s')
    /\ denotes s' (bounds_history t') (rs ++ [r])
    /\ vel_x t' = fst (velocity_of (rs ++ [r]))
    /\ vel_y t' = snd (velocity_of (rs ++ [r])).
Proof.
  intros Hd Hr. eexists _, _.
  split; [exact (add_frame_eval t s rs region r Hd Hr)|].
  split; [apply denotes_snoc, Hd|]. split; reflexivity.
Qed.

Lemma add_blank_frame_velocity (t : Track) (s : store) (rs : list Region)
    (r : Region) :
  denotes s (bounds_history t) rs ->
  last rs = Some r ->
  exists t' s', add_blank_frame t s = Ok (t', s')
    /\ denotes s' (bounds_history t') (rs ++ [blank_of r])
    /\ vel_x t' = 0%Q /\ vel_y t' = 0%Q
    /\ (fst (velocity_of (rs ++ [blank_of r])) == 0)%Q
    /\ (snd (velocity_of (rs ++ [blank_of r])) == 0)%Q.
Proof.
  intros Hd Hlast.
  destruct rs as [|r' rs' _] using rev_ind; [discriminate|].
  rewrite last_snoc in Hlast. injection Hlast as ->.
  pose proof Hd as Hd'.
  apply Forall2_app_inv_r in Hd' as (h & hb & Hh & Hb & Heq).
  inversion Hb as [|b ? ? ? Hbr Hnil]; subst. inversion Hnil; subst.
  eexists _, _. split; [exact (add_blank_frame_eval t s h b r Heq Hbr)|].
  split; [cbn; apply denotes_snoc, Hd|].
  split; [reflexivity|]. split; [reflexivity|].
  rewrite <- app_assoc. cbn [app]. rewrite velocity_of_snoc2.
  unfold mid_x, mid_y, blank_of. cbn. split; ring.
Qed.

(** C3 fails as stated: a new track is given three frames, the last of
    mass 0, and is trimmed.  The velocity is still the one computed when the
    third frame was added, 2, while the midpoints of the two entries that
    remain differ by 5. *)
Lemma trim_leaves_velocity_stale :
  exists t s,
    three_frames_then_trim store3 = Ok (t, s)
    /\ ~ velocity_current s t.
Proof.
  eexists _, _. split; [vm_compute; reflexivity|].
  intros (rs & Hd & Hx & _).
  inversion Hd as [|? r1 ? rs1 H1 Hd1]; subst.
  inversion Hd1 as [|? r2 ? rs2 H2 Hd2]; subst.
  inversion Hd2; subst.
  cbn in H1, H2. injection H1 as <-. injection H2 as <-.
  vm_compute in Hx. discriminate.
Qed.

(** C3, amended: [add_frame] and [add_blank_frame] leave the velocity equal
    to the difference of the midpoints of the two most recent entries, and
    to zero when there is one entry only; [trim] and [smooth] do not
    recompute the velocity: they return it as it was. *)
Theorem velocity_after_each_operation (t : Track) (s : store)
    (rs : list Region) (region : loc) (r : Region) (fb : Rectangle)
    (Hd : denotes s (bounds_history t) rs)
    (Hr : objs s !! region = Some r) :
  (exists t' s', add_frame t region s = Ok (t', s') /\ velocity_current s' t')
  /\ (rs <> [] ->
      exists t' s', add_blank_frame t s = Ok (t', s')
        /\ velocity_current s' t' /\ vel_x t' = 0%Q /\ vel_y t' = 0%Q)
  /\ (exists t', trim t s = Ok (t', s)
        /\ vel_x t' = vel_x t /\ vel_y t' = vel_y t)
  /\ (length rs <> 1%nat ->
      exists t' s', smooth t fb s = Ok (t', s')
        /\ vel_x t' = vel_x t /\ vel_y t' = vel_y t).
Proof.
  split; [|split; [|split]].
  - destruct (add_frame_velocity t s rs region r Hd Hr)
      as (t' & s' & He & Hd' & Hx & Hy).
    exists t', s'. split; [exact He|]. exists (rs ++ [r]).
    split; [exact Hd'|]. rewrite Hx, Hy. split; reflexivity.
  - intros Hne. destruct (last rs) as [rl|] eqn:El;
      [|apply last_None in El; contradiction].
    destruct (add_blank_frame_velocity t s rs rl Hd El)
      as (t' & s' & He & Hd' & Hx & Hy & Vx & Vy).
    exists t', s'. split; [exact He|]. split; [|split; assumption].
    exists (rs ++ [blank_of rl]). split; [exact Hd'|].
    rewrite Hx, Hy, Vx, Vy. split; reflexivity.
  - exact (trim_keeps_velocity t s rs Hd).
  - intros Hlen. exact (smooth_keeps_velocity t fb s rs Hd Hlen).
Qed.

Lemma velocity_after_each_operation_witness :
  denotes store5 (bounds_history track5) (objs store5)
  /\ objs store5 !! 0%nat = Some (box 0 0 10 10 1)
  /\ (exists t' s', add_frame track5 0%nat store5 = Ok (t', s')
        /\ velocity_current s' t')
  /\ (exists t', trim track5 store5 = Ok (t', store5)
        /\ vel_x t' = vel_x track5 /\ vel_y t' = vel_y track5).
Proof.
  split; [exact store5_denotes|]. split; [reflexivity|].
  destruct (velocity_after_each_operation track5 store5 (objs store5) 0%nat
              (box 0 0 10 10 1) (Rectangle.mk 0 0 160 120)
              store5_denotes eq_refl) as (H1 & _ & H3 & _).
  split; assumption.
Defined.

(** ** get_overlap_ratio *)

Lemma get_overlap_ratio_loop_form (t other_track : Track) (threshold : Q) :
  get_overlap_ratio t other_track threshold
  = (let h := bounds_history t in
     let oh := bounds_history other_track in
     if (len h =? 0) || (len oh =? 0) then ret 0%Q
     else
       do frames_overlapped <-
         forM (range (shared_start t other_track)
                     (shared_end t other_track + 1))
              (overlap_body t other_track threshold) 0;
       div (inject_Z frames_overlapped) (inject_Z (len h))).
Proof. reflexivity. Qed.

Lemma div_ok (a b : Q) (s : store) :
  ~ (b == 0)%Q -> div a b s = Ok ((a / b)%Q, s).
Proof.
  intros Hb. unfold div. destruct (Qeq_bool b 0) eqn:E; [|reflexivity].
  apply Qeq_bool_iff in E. contradiction.
Qed.

Lemma div_zero (a b : Q) (s : store) :
  (b == 0)%Q -> div a b s = Raise ZeroDivisionError.
Proof.
  intros Hb. unfold div. apply Qeq_bool_iff in Hb. rewrite Hb. reflexivity.
Qed.

Lemma count_le {A} (p : A -> bool) (l : list A) : (count p l <= length l)%nat.
Proof. induction l as [|a l IH]; cbn; [lia|]. destruct (p a); lia. Qed.

Lemma count_app {A} (p : A -> bool) (l1 l2 : list A) :
  count p (l1 ++ l2) = (count p l1 + count p l2)%nat.
Proof.
  induction l1 as [|a l1 IH]; cbn; [reflexivity|]. rewrite IH.
  destruct (p a); reflexivity.
Qed.

Lemma range_length (a b : Z) : length (range a b) = Z.to_nat (b - a).
Proof. unfold range. rewrite length_map, length_seq. reflexivity. Qed.

Lemma range_snoc (a b : Z) : a <= b -> range a (b + 1) = range a b ++ [b].
Proof.
  intros H. unfold range.
  replace (Z.to_nat (b + 1 - a)) with (Z.to_nat (b - a) + 1)%nat by lia.
  rewrite seq_app, map_app. cbn. f_equal. f_equal. lia.
Qed.

Lemma range_empty (a b : Z) : b <= a -> range a b = [].
Proof.
  intros H. unfold range. replace (Z.to_nat (b - a)) with 0%nat by lia.
  reflexivity.
Qed.

Section Overlap.
Variables (t other_track : Track) (threshold : Q) (s : store)
          (rs ors : list Region).
Hypothesis Hd : denotes s (bounds_history t) rs.
Hypothesis Hod : denotes s (bounds_history other_track) ors.

Let sf := start_frame t.
Let osf := start_frame other_track.

(** One iteration: the count grows by one exactly when the frame is
    overlapped; a region of ours without area makes the division fail. *)
Lemma overlap_body_eval (cnt pos : Z) :
  (forall ours, 0 <= pos - sf -> rs !! Z.to_nat (pos - sf) = Some ours ->
                0 <= pos - osf -> pos - osf < len ors ->
                ~ (area ours == 0)%Q) ->
  overlap_body t other_track threshold cnt pos s
  = Ok (cnt + (if frame_overlaps rs ors sf osf threshold pos then 1 else 0),
        s).
Proof.
  intros Harea. unfold overlap_body, frame_overlaps. fold sf osf.
  pose proof (denotes_length _ _ _ Hd) as Hl.
  pose proof (denotes_length _ _ _ Hod) as Hol.
  destruct (0 <=? pos - sf) eqn:E1; cbn [andb];
    [|unfold ret; rewrite Z.add_0_r; reflexivity].
  destruct (0 <=? pos - osf) eqn:E2; cbn [andb];
    [|unfold ret; rewrite Z.add_0_r; reflexivity].
  apply Z.leb_le in E1, E2.
  destruct (pos - sf <? len (bounds_history t)) eqn:E3; cbn [andb].
  2:{ apply Z.ltb_ge in E3.
      rewrite (proj2 (lookup_ge_None rs (Z.to_nat (pos - sf))))
        by (unfold len in E3; lia).
      unfold ret. rewrite Z.add_0_r. reflexivity. }
  destruct (pos - osf <? len (bounds_history other_track)) eqn:E4.
  2:{ apply Z.ltb_ge in E4.
      rewrite (proj2 (lookup_ge_None ors (Z.to_nat (pos - osf))))
        by (unfold len in E4; lia).
      destruct (rs !! _); unfold ret; rewrite Z.add_0_r; reflexivity. }
  apply Z.ltb_lt in E3, E4.
  destruct (lookup_lt_is_Some_2 (bounds_history t) (Z.to_nat (pos - sf))
              ltac:(unfold len in E3; lia)) as [l Hl1].
  destruct (lookup_lt_is_Some_2 (bounds_history other_track)
              (Z.to_nat (pos - osf)) ltac:(unfold len in E4; lia))
    as [ol Hol1].
  destruct (denotes_lookup _ _ _ _ _ Hd Hl1) as (ours & Hrs & Ho).
  destruct (denotes_lookup _ _ _ _ _ Hod Hol1) as (others & Hors & Hoo).
  rewrite Hrs, Hors.
  rewrite (bind_ok _ _ _ _ _ (getitem_ok _ _ _ s E1 Hl1)).
  rewrite (bind_ok _ _ _ _ _ (getitem_ok _ _ _ s E2 Hol1)).
  unfold load at 1. unfold bind at 1. rewrite Ho.
  unfold load at 1. unfold bind at 1. rewrite Hoo.
  rewrite (bind_ok _ _ _ _ _ (attr_ok area _ _ _ Ho)).
  rewrite (bind_ok _ _ _ _ _ (div_ok _ _ s
             (Harea ours E1 Hrs E2 ltac:(unfold len in *; lia)))).
  destruct (Qle_bool threshold _); unfold ret;
    [|rewrite Z.add_0_r]; reflexivity.
Qed.

Lemma overlap_loop (ps : list Z) :
  forall cnt,
    (forall pos ours, pos ∈ ps ->
       0 <= pos - sf -> rs !! Z.to_nat (pos - sf) = Some ours ->
       0 <= pos - osf -> pos - osf < len ors ->
       ~ (area ours == 0)%Q) ->
    forM ps (overlap_body t other_track threshold) cnt s
    = Ok (cnt + Z.of_nat (count (frame_overlaps rs ors sf osf threshold) ps),
          s).
Proof.
  induction ps as [|pos ps IH]; intros cnt Harea.
  - cbn. unfold ret. rewrite Z.add_0_r. reflexivity.
  - cbn [forM count].
    rewrite (bind_ok _ _ _ _ _ (overlap_body_eval cnt pos
               (fun ours => Harea pos ours ltac:(left)))).
    rewrite IH by (intros p o Hp; apply Harea; right; exact Hp).
    f_equal. f_equal.
    destruct (frame_overlaps rs ors sf osf threshold pos); lia.
Qed.

(** The frame one past the shared range never counts. *)
Lemma frame_overlaps_at_end :
  frame_overlaps rs ors sf osf threshold (shared_end t other_track) = false.
Proof.
  unfold frame_overlaps, shared_end. fold sf osf.
  pose proof (denotes_length _ _ _ Hd) as Hl.
  pose proof (denotes_length _ _ _ Hod) as Hol.
  set (e := Z.min _ _).
  destruct (Z.le_ge_cases (sf + len (bounds_history t))
                          (osf + len (bounds_history other_track))).
  - rewrite (proj2 (lookup_ge_None rs (Z.to_nat (e - sf))))
      by (unfold len in *; lia).
    apply andb_false_r.
  - rewrite (proj2 (lookup_ge_None ors (Z.to_nat (e - osf))))
      by (unfold len in *; lia).
    destruct (rs !! _); apply andb_false_r.
Qed.
End Overlap.

Lemma inject_Z_nonzero (n : Z) : n <> 0 -> ~ (inject_Z n == 0)%Q.
Proof. intros Hn. unfold Qeq. cbn. lia. Qed.

Lemma ratio_bounds (c n : Z) :
  0 <= c <= n -> 0 < n -> (0 <= inject_Z c / inject_Z n <= 1)%Q.
Proof.
  intros Hc Hn.
  assert (Hn' : (0 < inject_Z n)%Q).
  { change 0%Q with (inject_Z 0). rewrite <- Zlt_Qlt. exact Hn. }
  split.
  - apply Qle_shift_div_l; [exact Hn'|]. rewrite Qmult_0_l.
    change 0%Q with (inject_Z 0). rewrite <- Zle_Qle. lia.
  - apply Qle_shift_div_r; [exact Hn'|]. rewrite Qmult_1_l.
    rewrite <- Zle_Qle. lia.
Qed.

(** The scenario of two tracks of five frames, the second starting at
    frame 2: three of the five frames of the first are overlapped. *)
Example overlap_trackA_trackB :
  get_overlap_ratio trackA trackB (5 # 100) store10 = Ok (3 # 5, store10).
Proof. reflexivity. Qed.

(** C6 fails as stated: a region of ours with area 0 in the shared range
    makes [overlap_area / area] a division by zero, and the call raises
    instead of returning a ratio. *)
Lemma overlap_ratio_zero_area_raises :
  denotes flat_store (bounds_history flat_track) [box 0 0 0 10 50]
  /\ get_overlap_ratio flat_track flat_track (5 # 100) flat_store
     = Raise ZeroDivisionError.
Proof. split; [repeat constructor|reflexivity]. Qed.

(** C6, amended: when no region of ours in the shared frame range has area
    0, [get_overlap_ratio] returns, without changing the store, the number
    of shared-range frames whose overlap is at least the threshold, divided
    by the length of our history; the ratio lies between 0 and 1, and is 0
    when a history is empty or the ranges do not intersect. *)
Theorem overlap_ratio_spec (t other_track : Track) (threshold : Q)
    (s : store) (rs ors : list Region)
    (Hd : denotes s (bounds_history t) rs)
    (Hod : denotes s (bounds_history other_track) ors)
    (Harea : forall pos ours,
        shared_start t other_track <= pos < shared_end t other_track ->
        rs !! Z.to_nat (pos - start_frame t) = Some ours ->
        ~ (area ours == 0)%Q) :
  exists q,
    get_overlap_ratio t other_track threshold s = Ok (q, s)
    /\ (0 <= q <= 1)%Q
    /\ (rs <> [] -> ors <> [] ->
        q = (inject_Z (Z.of_nat (count_overlapped rs ors t other_track
                                                  threshold))
             / inject_Z (len (bounds_history t)))%Q)
    /\ (rs = [] \/ ors = []
        \/ shared_end t other_track <= shared_start t other_track ->
        (q == 0)%Q).
Proof.
  pose proof (denotes_length _ _ _ Hd) as Hl.
  pose proof (denotes_length _ _ _ Hod) as Hol.
  rewrite get_overlap_ratio_loop_form. cbn zeta.
  destruct ((len (bounds_history t) =? 0)
            || (len (bounds_history other_track) =? 0)) eqn:Eempty.
  { exists 0%Q. split; [reflexivity|]. split; [split; discriminate|].
    split.
    - intros Hr Hor. apply orb_true_iff in Eempty as [E|E];
        apply Z.eqb_eq in E; unfold len in E;
        [destruct rs|destruct ors]; cbn in *; try contradiction; lia.
    - reflexivity. }
  apply orb_false_iff in Eempty as [E1 E2].
  apply Z.eqb_neq in E1, E2.
  set (a := shared_start t other_track) in *.
  set (e := shared_end t other_track) in *.
  set (p := frame_overlaps rs ors (start_frame t) (start_frame other_track)
                           threshold).
  assert (Hcount : count p (range a (e + 1)) = count p (range a e)).
  { destruct (Z.le_gt_cases a e) as [Hae|Hae].
    - rewrite range_snoc by exact Hae. rewrite count_app. cbn [count].
      unfold p, e. rewrite (frame_overlaps_at_end t other_track threshold s
                              rs ors Hd Hod). lia.
    - rewrite !range_empty by lia. reflexivity. }
  assert (Hloop : forM (range a (e + 1))
                       (overlap_body t other_track threshold) 0 s
                  = Ok (Z.of_nat (count p (range a e)), s)).
  { rewrite (overlap_loop t other_track threshold s rs ors Hd Hod).
    - fold p. fold a e. rewrite Hcount. reflexivity.
    - intros pos ours _ H1 H2 H3 H4. apply (Harea pos ours); [|exact H2].
      apply lookup_lt_Some in H2. unfold a, e, shared_start, shared_end.
      unfold len in *. lia. }
  rewrite (bind_ok _ _ _ _ _ Hloop).
  rewrite (div_ok _ _ s (inject_Z_nonzero _ E1)).
  eexists. split; [reflexivity|].
  assert (Hle : Z.of_nat (count p (range a e)) <= len (bounds_history t)).
  { pose proof (count_le p (range a e)) as Hc. rewrite range_length in Hc.
    unfold a, e, shared_start, shared_end in Hc |- *.
    pose proof (len_nonneg (bounds_history t)). lia. }
  split; [apply ratio_bounds; pose proof (len_nonneg (bounds_history t)); lia|].
  split; [intros _ _; reflexivity|].
  intros [Hr|[Hor|Hdis]].
  - subst rs. unfold len in E1. cbn in Hl. lia.
  - subst ors. unfold len in E2. cbn in Hol. lia.
  - rewrite range_empty by exact Hdis. cbn [count]. unfold Qdiv.
    change (inject_Z (Z.of_nat 0)) with 0%Q. apply Qmult_0_l.
Qed.

Lemma store10_trackA : denotes store10 (bounds_history trackA)
                                (replicate 5 (box 0 0 10 10 50)).
Proof. repeat constructor. Qed.

Lemma store10_trackB : denotes store10 (bounds_history trackB)
                                (replicate 5 (box 0 0 10 10 50)).
Proof. repeat constructor. Qed.

Lemma overlap_ratio_spec_witness :
  (forall pos ours,
      shared_start trackA trackB <= pos < shared_end trackA trackB ->
      replicate 5 (box 0 0 10 10 50) !! Z.to_nat (pos - start_frame trackA)
      = Some ours ->
      ~ (area ours == 0)%Q)
  /\ exists q,
       get_overlap_ratio trackA trackB (5 # 100) store10 = Ok (q, store10)
       /\ (0 <= q <= 1)%Q.
Proof.
  assert (Harea : forall pos ours,
      shared_start trackA trackB <= pos < shared_end trackA trackB ->
      replicate 5 (box 0 0 10 10 50) !! Z.to_nat (pos - start_frame trackA)
      = Some ours ->
      ~ (area ours == 0)%Q).
  { intros pos ours _ Hl. apply lookup_replicate in Hl as [-> _].
    vm_compute. discriminate. }
  split; [exact Harea|].
  destruct (overlap_ratio_spec trackA trackB (5 # 100) store10 _ _
              store10_trackA store10_trackB Harea) as (q & H1 & H2 & _).
  exists q. split; assumption.
Defined.

(** ** get_track_region_score *)

Lemma get_track_region_score_eval (t : Track) (s : store) (h : list loc)
    (b region : loc) (cur r : Region) :
  bounds_history t = h ++ [b] ->
  objs s !! b = Some cur ->
  objs s !! region = Some r ->
  ~ (area cur + 50 == 0)%Q ->
  get_track_region_score t region s
  = Ok ((score_distance t cur r, score_size_difference cur r), s).
Proof.
  intros Hh Hb Hr Hpad. unfold get_track_region_score, bounds. rewrite Hh.
  rewrite (bind_ok _ _ _ _ _ (getitem_last h b s)).
  rewrite (bind_ok _ _ _ _ _ (attr_ok mid_x _ _ _ Hb)).
  rewrite (bind_ok _ _ _ _ _ (getitem_last h b s)).
  rewrite (bind_ok _ _ _ _ _ (attr_ok mid_y _ _ _ Hb)).
  rewrite (bind_ok _ _ _ _ _ (attr_ok mid_x _ _ _ Hr)).
  rewrite (bind_ok _ _ _ _ _ (attr_ok mid_y _ _ _ Hr)).
  rewrite (bind_ok _ _ _ _ _ (attr_ok area _ _ _ Hr)).
  rewrite (bind_ok _ _ _ _ _ (getitem_last h b s)).
  rewrite (bind_ok _ _ _ _ _ (attr_ok area _ _ _ Hb)).
  rewrite (bind_ok _ _ _ _ _ (getitem_last h b s)).
  rewrite (bind_ok _ _ _ _ _ (attr_ok area _ _ _ Hb)).
  rewrite (bind_ok _ _ _ _ _ (div_ok _ _ s Hpad)).
  reflexivity.
Qed.

Lemma norm_zero (a b : Q) : (a == 0)%Q -> (b == 0)%Q -> norm a b = 0%R.
Proof.
  intros Ha Hb. unfold norm.
  assert (E : (a ^ 2 + b ^ 2 == 0)%Q) by (rewrite Ha, Hb; reflexivity).
  rewrite (Qeq_eqR _ _ E). unfold Q2R. cbn. rewrite Rmult_0_l. apply sqrt_0.
Qed.

Lemma norm_pos (a b : Q) : (0 < a ^ 2 + b ^ 2)%Q -> (0 < norm a b)%R.
Proof.
  intros H. unfold norm. apply sqrt_lt_R0. apply Qlt_Rlt in H.
  rewrite RMicromega.Q2R_0 in H. exact H.
Qed.

(** C5 fails as stated: for a track at rest on the unit square (midpoint
    (1/2, 1/2)) and a candidate region at the same place, the expected
    point is truncated to (0, 0) and the distance returned is positive,
    while the distance from the midpoint plus the velocity is 0. *)
Lemma score_distance_is_from_truncated_point :
  exists d sd,
    get_track_region_score unit_track 0%nat unit_store
    = Ok ((d, sd), unit_store)
    /\ d <> claimed_distance unit_track (box 0 0 1 1 50) (box 0 0 1 1 50).
Proof.
  eexists _, _. split.
  - apply (get_track_region_score_eval unit_track unit_store [] 0%nat 0%nat
             (box 0 0 1 1 50) (box 0 0 1 1 50)); try reflexivity.
    vm_compute. discriminate.
  - assert (H0 : claimed_distance unit_track (box 0 0 1 1 50)
                   (box 0 0 1 1 50) = 0%R)
      by (apply norm_zero; reflexivity).
    assert (H1 : (0 < score_distance unit_track (box 0 0 1 1 50)
                        (box 0 0 1 1 50))%R)
      by (apply norm_pos; reflexivity).
    rewrite H0. lra.
Qed.

(** C5, amended: for a track with history, [get_track_region_score]
    returns the Euclidean distance between the midpoint of the region and
    the expected point, which is the midpoint of the current region plus
    the velocity with both coordinates truncated to integers, and the size
    difference [abs(region.area - current.area) / (current.area + 50) *
    100]; the division is defined as soon as the current area is not -50,
    as for every area that is not negative. *)
Theorem track_region_score_spec (t : Track) (s : store) (rs : list Region)
    (region : loc) (cur r : Region)
    (Hd : denotes s (bounds_history t) rs)
    (Hlast : last rs = Some cur)
    (Hr : objs s !! region = Some r)
    (Hpad : ~ (area cur + 50 == 0)%Q) :
  get_track_region_score t region s
  = Ok ((sqrt (Q2R ((mid_x r - inject_Z (py_int (mid_x cur + vel_x t))) ^ 2
                    + (mid_y r - inject_Z (py_int (mid_y cur + vel_y t))) ^ 2)),
         (Qabs (area r - area cur) / (area cur + 50) * 100)%Q), s).
Proof.
  destruct rs as [|r' rs' _] using rev_ind; [discriminate|].
  rewrite last_snoc in Hlast. injection Hlast as ->.
  apply Forall2_app_inv_r in Hd as (h & hb & Hh & Hb & Heq).
  inversion Hb as [|b ? ? ? Hbr Hnil]; subst. inversion Hnil; subst.
  exact (get_track_region_score_eval t s h b region cur r Heq Hbr Hr Hpad).
Qed.

Lemma track_region_score_spec_witness :
  denotes unit_store (bounds_history unit_track) [box 0 0 1 1 50]
  /\ last [box 0 0 1 1 50] = Some (box 0 0 1 1 50)
  /\ objs unit_store !! 0%nat = Some (box 0 0 1 1 50)
  /\ ~ (area (box 0 0 1 1 50) + 50 == 0)%Q
  /\ exists d,
       get_track_region_score unit_track 0%nat unit_store
       = Ok ((d, (Qabs (area (box 0 0 1 1 50) - area (box 0 0 1 1 50))
                  / (area (box 0 0 1 1 50) + 50) * 100)%Q), unit_store).
Proof.
  assert (Hd : denotes unit_store (bounds_history unit_track)
                       [box 0 0 1 1 50]) by (repeat constructor).
  assert (Hpad : ~ (area (box 0 0 1 1 50) + 50 == 0)%Q)
    by (vm_compute; discriminate).
  split; [exact Hd|]. split; [reflexivity|]. split; [reflexivity|].
  split; [exact Hpad|].
  eexists.
  exact (track_region_score_spec unit_track unit_store [box 0 0 1 1 50]
           0%nat (box 0 0 1 1 50) (box 0 0 1 1 50) Hd eq_refl eq_refl Hpad).
Defined.

(** ** get_stats *)

Lemma mapM_pure {A B} (f : A -> M B) (g : A -> B) (l : list A) (s : store) :
  (forall a, In a l -> f a s = Ok (g a, s)) ->
  mapM f l s = Ok (map g l, s).
Proof.
  induction l as [|a l IH]; intros H; [reflexivity|].
  cbn [mapM map]. rewrite (bind_ok _ _ _ _ _ (H a (or_introl eq_refl))).
  rewrite (bind_ok _ _ _ _ _ (IH (fun b Hb => H b (or_intror Hb)))).
  reflexivity.
Qed.

Lemma slice_tail {A} (l : list A) :
  (1 <= length l)%nat -> slice l 1 (len l) = drop 1 l.
Proof.
  intros H. change 1 with (Z.of_nat 1). unfold len.
  rewrite slice_in by lia. apply take_ge. rewrite length_drop. lia.
Qed.

Lemma slice_init {A} (l : list A) :
  slice l 0 (-1) = take (length l - 1) l.
Proof.
  unfold slice, slice_bound. cbn [Z.ltb Z.compare]. unfold len.
  replace (Z.to_nat (Z.min (Z.max 0 0) (Z.of_nat (length l)))) with 0%nat
    by lia.
  replace (Z.to_nat (Z.min (Z.max (-1 + Z.of_nat (length l)) 0)
                           (Z.of_nat (length l))))
    with (length l - 1)%nat by lia.
  rewrite Nat.sub_0_r. reflexivity.
Qed.

Lemma zip_tail_init {A} (l : list A) :
  zip (drop 1 l) (take (length l - 1) l)
  = map (fun '(a, b) => (b, a)) (steps l).
Proof.
  induction l as [|a l IH]; [reflexivity|].
  destruct l as [|b l]; [reflexivity|].
  change (steps (a :: b :: l)) with ((a, b) :: steps (b :: l)).
  rewrite map_cons, <- IH. cbn [length drop].
  replace (S (S (length l)) - 1)%nat with (S (length l)) by lia.
  replace (S (length l) - 1)%nat with (length l) by lia.
  reflexivity.
Qed.

Lemma steps_map {A B} (g : A -> B) (l : list A) :
  steps (map g l) = map (fun '(a, b) => (g a, g b)) (steps l).
Proof.
  induction l as [|a l IH]; [reflexivity|].
  destruct l as [|b l]; [reflexivity|].
  change (steps (map g (a :: b :: l)))
    with ((g a, g b) :: steps (map g (b :: l))).
  rewrite IH. reflexivity.
Qed.

Lemma zip_map_same {A B C} (f : A -> B) (g : A -> C) (l : list A) :
  zip (map f l) (map g l) = map (fun a => (f a, g a)) l.
Proof. induction l as [|a l IH]; cbn; [|rewrite IH]; reflexivity. Qed.

Lemma fold_left_Rplus (l : list R) (a : R) :
  fold_left Rplus l a = (a + fold_left Rplus l 0)%R.
Proof.
  revert a. induction l as [|x l IH]; intros a; cbn; [lra|].
  rewrite (IH (a + x)%R), (IH (0 + x)%R). lra.
Qed.

Lemma Rsum_cons (x : R) (l : list R) : Rsum (x :: l) = (x + Rsum l)%R.
Proof. unfold Rsum. cbn. rewrite fold_left_Rplus. lra. Qed.

(** The velocities that the code computes from the lists of midpoints sum
    to the movement. *)
Lemma movement_from_steps (rs : list Region) :
  Rsum (map (fun '(p, c) => norm (mid_x c - mid_x p) (mid_y c - mid_y p))
            (steps rs))
  = movement_of rs.
Proof.
  induction rs as [|r1 rs IH]; [reflexivity|].
  destruct rs as [|r2 rs]; [reflexivity|].
  change (steps (r1 :: r2 :: rs)) with ((r1, r2) :: steps (r2 :: rs)).
  change (movement_of (r1 :: r2 :: rs))
    with (norm (mid_x r2 - mid_x r1) (mid_y r2 - mid_y r1)
          + movement_of (r2 :: rs))%R.
  rewrite map_cons, Rsum_cons, IH. reflexivity.
Qed.

Lemma velocities_from_steps (g : Region -> Q) (rs : list Region) :
  (1 <= length rs)%nat ->
  map (fun '(cur, prev) => (cur - prev)%Q)
      (zip (slice (map g rs) 1 (len (map g rs))) (slice (map g rs) 0 (-1)))
  = map (fun '(p, c) => (g c - g p)%Q) (steps rs).
Proof.
  intros H. rewrite slice_tail by (rewrite length_map; exact H).
  rewrite slice_init, zip_tail_init, steps_map, !map_map.
  apply map_ext. intros [p c]. reflexivity.
Qed.

Lemma norm_swap (a b c d : Q) : norm (a - b) (c - d) = norm (b - a) (d - c).
Proof.
  unfold norm. f_equal. apply Qeq_eqR. ring.
Qed.

Lemma norm_nonneg (a b : Q) : (0 <= norm a b)%R.
Proof. apply sqrt_pos. Qed.

Lemma get_stats_short (t : Track) (s : store) :
  (length (bounds_history t) <= 1)%nat ->
  get_stats t s = Ok (default_stats, s).
Proof.
  intros H. unfold get_stats. cbn zeta.
  replace (len (bounds_history t) <=? 1) with true
    by (symmetry; apply Z.leb_le; unfold len; lia).
  reflexivity.
Qed.

(** With two entries or more, [get_stats] returns the statistics of the
    regions, unless the mean of the pixel variances is negative: its power
    0.5 is then a complex number, which [min] refuses to compare. *)
Lemma get_stats_cases (t : Track) (s : store) (rs : list Region) :
  denotes s (bounds_history t) rs ->
  (2 <= length rs)%nat ->
  get_stats t s
  = if Qle_bool 0 (np_mean (map Region.pixel_variance rs))
    then Ok (stats_of rs, s) else Raise TypeError.
Proof.
  intros Hd Hlen. pose proof (denotes_length _ _ _ Hd) as Hl.
  unfold get_stats. cbn zeta.
  replace (len (bounds_history t) <=? 1) with false
    by (symmetry; apply Z.leb_gt; unfold len; lia).
  rewrite (bind_ok _ _ _ _ _ (mapM_attr _ s _ rs Hd)).
  rewrite (bind_ok _ _ _ _ _ (mapM_attr _ s _ rs Hd)).
  rewrite (bind_ok _ _ _ _ _ (mapM_attr _ s _ rs Hd)).
  rewrite (bind_ok _ _ _ _ _ (mapM_attr _ s _ rs Hd)).
  destruct rs as [|first rest] eqn:Ers; [cbn in Hlen; lia|].
  rewrite <- Ers in *.
  assert (Hx : mapM (fun x => do x0 <- getitem (map mid_x rs) 0;
                              ret (x0 - x)%Q) (map mid_x rs) s
               = Ok (map (fun x => (mid_x first - x)%Q) (map mid_x rs), s)).
  { apply mapM_pure. intros a _.
    rewrite (bind_ok _ _ s s (mid_x first));
      [reflexivity|apply getitem_ok; [lia|rewrite Ers; reflexivity]]. }
  assert (Hy : mapM (fun y => do y0 <- getitem (map mid_y rs) 0;
                              ret (y0 - y)%Q) (map mid_y rs) s
               = Ok (map (fun y => (mid_y first - y)%Q) (map mid_y rs), s)).
  { apply mapM_pure. intros a _.
    rewrite (bind_ok _ _ s s (mid_y first));
      [reflexivity|apply getitem_ok; [lia|rewrite Ers; reflexivity]]. }
  rewrite (bind_ok _ _ _ _ _ Hx), (bind_ok _ _ _ _ _ Hy).
  rewrite !map_map, zip_map_same, map_map.
  rewrite !velocities_from_steps by lia.
  rewrite zip_map_same, map_map.
  assert (Hmov : Rsum (map (fun x : Region * Region =>
                   let '(vx, vy) :=
                     (let '(p, c) := x in (mid_x c - mid_x p)%Q,
                      let '(p, c) := x in (mid_y c - mid_y p)%Q) in
                   norm vx vy) (steps rs)) = movement_of rs).
  { rewrite <- movement_from_steps. f_equal. apply map_ext.
    intros [p c]. reflexivity. }
  rewrite Hmov.
  rewrite Ers at 1. cbn [map py_max].
  unfold bind at 1. cbn [ret].
  destruct (Qle_bool 0 (np_mean (map Region.pixel_variance rs)));
    [|reflexivity].
  unfold ret, stats_of. rewrite Ers. cbn [hd tl]. f_equal. f_equal.
  assert (Hmax : fold_left Rmax
                   (map (fun x : Region =>
                           norm (mid_x first - mid_x x)
                                (mid_y first - mid_y x)) rest)
                   (norm (mid_x first - mid_x first)
                         (mid_y first - mid_y first))
                 = fold_left Rmax (map (offset_from first) rest)
                     (offset_from first first)).
  { unfold offset_from. f_equal. apply map_ext. intros r. apply norm_swap. }
  rewrite Hmax. rewrite <- Ers. rewrite (map_map int_mass inject_Z rs).
  reflexivity.
Qed.

Lemma get_stats_eval (t : Track) (s : store) (rs : list Region) :
  denotes s (bounds_history t) rs ->
  (2 <= length rs)%nat ->
  (0 <= np_mean (map Region.pixel_variance rs))%Q ->
  get_stats t s = Ok (stats_of rs, s).
Proof.
  intros Hd Hlen Hvar. rewrite (get_stats_cases t s rs Hd Hlen).
  apply Qle_bool_iff in Hvar. rewrite Hvar. reflexivity.
Qed.

Lemma get_stats_negative_variance (t : Track) (s : store)
    (rs : list Region) :
  denotes s (bounds_history t) rs ->
  (2 <= length rs)%nat ->
  (np_mean (map Region.pixel_variance rs) < 0)%Q ->
  get_stats t s = Raise TypeError.
Proof.
  intros Hd Hlen Hvar. rewrite (get_stats_cases t s rs Hd Hlen).
  destruct (Qle_bool 0 _) eqn:E; [|reflexivity].
  apply Qle_bool_iff in E. exfalso. exact (Qlt_not_le _ _ Hvar E).
Qed.

(** The median is read from a sorted rearrangement of the masses. *)
Lemma insert_sorted_perm (a : Z) (l : list Z) :
  Permutation (insert_sorted a l) (a :: l).
Proof.
  induction l as [|b l IH]; cbn; [reflexivity|].
  destruct (a <=? b); [reflexivity|].
  rewrite IH. apply perm_swap.
Qed.

Lemma sorted_perm (l : list Z) : Permutation (sorted l) l.
Proof.
  induction l as [|a l IH]; cbn; [reflexivity|].
  rewrite insert_sorted_perm, IH. reflexivity.
Qed.

Lemma insert_sorted_Sorted (a : Z) (l : list Z) :
  Sorted Z.le l -> Sorted Z.le (insert_sorted a l).
Proof.
  induction 1 as [|b l Hs IH Hb]; cbn; [repeat constructor|].
  destruct (a <=? b) eqn:E.
  - apply Z.leb_le in E. repeat constructor; assumption.
  - apply Z.leb_gt in E. constructor; [exact IH|].
    destruct l as [|c l]; cbn; [constructor; lia|].
    destruct (a <=? c); constructor; [lia|].
    inversion Hb; assumption.
Qed.

Lemma sorted_Sorted (l : list Z) : Sorted Z.le (sorted l).
Proof.
  induction l as [|a l IH]; cbn; [constructor|].
  apply insert_sorted_Sorted, IH.
Qed.

Lemma fold_left_Rmax_maximum (l : list R) :
  forall a, is_maximum (fold_left Rmax l a) (a :: l).
Proof.
  induction l as [|x l IH]; intros a.
  - split; [left; reflexivity|]. intros v [<-|[]]. cbn. lra.
  - cbn [fold_left]. destruct (IH (Rmax a x)) as [Hin Hle]. split.
    + destruct Hin as [Hin|Hin]; [|right; right; exact Hin].
      rewrite <- Hin. unfold Rmax. destruct (Rle_dec a x);
        [right; left|left]; reflexivity.
    + intros v [<-|[<-|Hv]].
      * etransitivity; [apply Rmax_l|]. apply Hle. left. reflexivity.
      * etransitivity; [apply Rmax_r|]. apply Hle. left. reflexivity.
      * apply Hle. right. exact Hv.
Qed.

Lemma fold_left_Qplus_nonneg (l : list Q) :
  Forall (fun q => (0 <= q)%Q) l ->
  forall a, (0 <= a)%Q -> (0 <= fold_left Qplus l a)%Q.
Proof.
  induction 1 as [|q l Hq _ IH]; intros a Ha; [exact Ha|].
  cbn. apply IH. replace 0%Q with (0 + 0)%Q by reflexivity.
  apply Qplus_le_compat; assumption.
Qed.

Lemma np_mean_nonneg (l : list Q) :
  l <> [] -> Forall (fun q => (0 <= q)%Q) l -> (0 <= np_mean l)%Q.
Proof.
  intros Hne Hl. unfold np_mean. apply Qle_shift_div_l.
  - change 0%Q with (inject_Z 0). rewrite <- Zlt_Qlt.
    unfold len. destruct l; [contradiction|cbn; lia].
  - rewrite Qmult_0_l. apply fold_left_Qplus_nonneg; [exact Hl|].
    apply Qle_refl.
Qed.

Lemma score_range (m o d : R) :
  (0 <= m)%R -> (0 <= o)%R -> (0 <= d)%R ->
  (0 <= Rmin (sqrt m + o) 100 + Rmin (d * 25) 100 <= 200)%R.
Proof.
  intros Hm Ho Hd. pose proof (sqrt_pos m) as Hs.
  assert (0 <= Rmin (sqrt m + o) 100 <= 100)%R
    by (split; [apply Rmin_glb; lra|apply Rmin_r]).
  assert (0 <= Rmin (d * 25) 100 <= 100)%R
    by (split; [apply Rmin_glb; lra|apply Rmin_r]).
  lra.
Qed.

Lemma movement_of_nonneg (rs : list Region) : (0 <= movement_of rs)%R.
Proof.
  induction rs as [|r1 rs IH]; [cbn; lra|].
  destruct rs as [|r2 rs]; [cbn; lra|].
  change (movement_of (r1 :: r2 :: rs))
    with (norm (mid_x r2 - mid_x r1) (mid_y r2 - mid_y r1)
          + movement_of (r2 :: rs))%R.
  pose proof (norm_nonneg (mid_x r2 - mid_x r1) (mid_y r2 - mid_y r1)). lra.
Qed.

Lemma norm_euclidean (a b : Q) : norm a b = euclidean a b.
Proof.
  unfold norm, euclidean. f_equal.
  change (a ^ 2)%Q with (a * a)%Q. change (b ^ 2)%Q with (b * b)%Q.
  rewrite Q2R_plus, !Q2R_mult. reflexivity.
Qed.

Lemma movement_of_path_length (rs : list Region) :
  movement_of rs = path_length rs.
Proof.
  induction rs as [|r1 rs IH]; [reflexivity|].
  destruct rs as [|r2 rs]; [reflexivity|].
  change (movement_of (r1 :: r2 :: rs))
    with (norm (mid_x r2 - mid_x r1) (mid_y r2 - mid_y r1)
          + movement_of (r2 :: rs))%R.
  change (path_length (r1 :: r2 :: rs))
    with (euclidean (mid_x r2 - mid_x r1) (mid_y r2 - mid_y r1)
          + path_length (r2 :: rs))%R.
  rewrite IH, norm_euclidean. reflexivity.
Qed.

Lemma offset_from_distance_to (first : Region) (rs : list Region) :
  map (offset_from first) rs = map (distance_to first) rs.
Proof. apply map_ext. intros r. apply norm_euclidean. Qed.

Lemma fold_left_Qplus_total (l : list Q) (a : Q) :
  (fold_left Qplus l a == a + total l)%Q.
Proof.
  revert a. induction l as [|x l IH]; intros a; cbn.
  - symmetry. apply Qplus_0_r.
  - rewrite IH. symmetry. apply Qplus_assoc.
Qed.

Lemma Qsum_total (l : list Q) : (Qsum l == total l)%Q.
Proof. unfold Qsum. rewrite fold_left_Qplus_total. apply Qplus_0_l. Qed.

(** What [np.mean] returns is the arithmetic mean. *)
Lemma np_mean_is_mean (l : list Q) : l <> [] -> is_mean l (np_mean l).
Proof.
  intros Hne. unfold is_mean, np_mean, len. rewrite Qsum_total.
  field. apply inject_Z_nonzero. destruct l; [contradiction|cbn; lia].
Qed.

Lemma np_mean_sign (l : list Q) :
  l <> [] -> ((0 <= np_mean l)%Q <-> (0 <= total l)%Q).
Proof.
  intros Hne.
  assert (Hn : (0 < inject_Z (Z.of_nat (length l)))%Q).
  { change 0%Q with (inject_Z 0). rewrite <- Zlt_Qlt.
    destruct l; [contradiction|cbn; lia]. }
  pose proof (np_mean_is_mean l Hne) as Hm. unfold is_mean in Hm.
  rewrite <- Hm. split; intros H.
  - apply Qmult_le_0_compat; [exact H|apply Qlt_le_weak, Hn].
  - apply Qnot_lt_le. intros Hneg.
    apply (Qlt_not_le _ _ (Qmult_lt_compat_r _ _ _ Hn Hneg)).
    rewrite Qmult_0_l. exact H.
Qed.

(** What [np.median] returns is the median. *)
Lemma np_median_is_median (l : list Z) : is_median l (np_median l).
Proof.
  exists (sorted l). split; [apply sorted_perm|].
  split; [apply sorted_Sorted|].
  unfold np_median, middle.
  rewrite (Permutation_length (sorted_perm l)). reflexivity.
Qed.

(** C4 fails as stated: on a track with two entries whose pixel variances
    are recorded as -1, the mean is negative, its power 0.5 is a complex
    number, and [get_stats] raises [TypeError] instead of returning a
    record. *)
Lemma get_stats_raises_on_negative_variance :
  denotes store_negative (bounds_history track_negative)
          (objs store_negative)
  /\ (2 <= length (bounds_history track_negative))%nat
  /\ get_stats track_negative store_negative = Raise TypeError.
Proof.
  assert (Hd : denotes store_negative (bounds_history track_negative)
                       (objs store_negative)) by (repeat constructor).
  split; [exact Hd|]. split; [cbn; lia|].
  apply (get_stats_negative_variance _ _ _ Hd); [cbn; lia|reflexivity].
Qed.

(** C4, amended: [get_stats] reads the history and nothing else, and
    changes nothing: two tracks with the same regions have the same
    outcome.  With at most one entry it returns the all-zero record.  With
    two entries or more whose pixel variances do not sum to a negative
    number, it returns the record in which [movement] is the sum over
    consecutive frames of the Euclidean norm of the midpoint difference,
    [max_offset] the maximum over all frames of the Euclidean distance to
    the midpoint of the first frame, [delta_std] the square root of the
    arithmetic mean of the pixel variances, [average_mass] the arithmetic
    mean and [median_mass] the median of the integer masses, and [score]
    is [min(sqrt(movement) + max_offset, 100) + min(delta_std * 25, 100)],
    between 0 and 200. *)
Theorem get_stats_spec (t : Track) (s : store) (rs : list Region)
    (Hd : denotes s (bounds_history t) rs) :
  ((length rs <= 1)%nat -> get_stats t s = Ok (default_stats, s))
  /\ ((2 <= length rs)%nat ->
      (0 <= total (map Region.pixel_variance rs))%Q ->
      exists first st,
        head rs = Some first
        /\ get_stats t s = Ok (st, s)
        /\ movement st = path_length rs
        /\ is_maximum (max_offset st) (map (distance_to first) rs)
        /\ (exists v, is_mean (map Region.pixel_variance rs) v
                      /\ delta_std st = sqrt (Q2R v))
        /\ (exists a, is_mean (map inject_Z (map int_mass rs)) a
                      /\ average_mass st = Q2R a)
        /\ (exists m, is_median (map int_mass rs) m
                      /\ median_mass st = Q2R m)
        /\ score st
           = (Rmin (sqrt (movement st) + max_offset st) 100
              + Rmin (delta_std st * 25) 100)%R
        /\ (0 <= score st <= 200)%R)
  /\ (forall t' s',
        denotes s' (bounds_history t') rs ->
        (forall st, get_stats t s = Ok (st, s)
                    <-> get_stats t' s' = Ok (st, s'))
        /\ (forall e, get_stats t s = Raise e
                      <-> get_stats t' s' = Raise e)).
Proof.
  pose proof (denotes_length _ _ _ Hd) as Hl.
  split; [|split].
  - intros Hshort. apply get_stats_short. lia.
  - intros Hlen Hsum.
    destruct rs as [|first rest] eqn:Ers; [cbn in Hlen; lia|].
    rewrite <- Ers in *.
    assert (Hne : rs <> []) by (rewrite Ers; discriminate).
    assert (Hnev : map Region.pixel_variance rs <> [])
      by (rewrite Ers; discriminate).
    assert (Hnem : map inject_Z (map int_mass rs) <> [])
      by (rewrite Ers; discriminate).
    exists first, (stats_of rs).
    split; [rewrite Ers; reflexivity|].
    split; [apply (get_stats_eval t s rs Hd Hlen);
            apply (np_mean_sign _ Hnev), Hsum|].
    split; [apply movement_of_path_length|].
    assert (Hmax : is_maximum (max_offset (stats_of rs))
                              (map (distance_to first) rs)).
    { rewrite <- offset_from_distance_to.
      unfold stats_of. rewrite Ers. cbn [max_offset hd tl map].
      apply fold_left_Rmax_maximum. }
    split; [exact Hmax|].
    split; [eexists; split; [apply np_mean_is_mean, Hnev|reflexivity]|].
    split; [eexists; split; [apply np_mean_is_mean, Hnem|reflexivity]|].
    split; [eexists; split; [apply np_median_is_median|reflexivity]|].
    split; [reflexivity|].
    apply score_range.
    + apply movement_of_nonneg.
    + destruct Hmax as [Hin _]. apply in_map_iff in Hin as (r & Hr & _).
      change (0 <= max_offset (stats_of rs))%R. rewrite <- Hr.
      apply sqrt_pos.
    + apply sqrt_pos.
  - intros t' s' Hd'. pose proof (denotes_length _ _ _ Hd') as Hl'.
    destruct (le_lt_dec (length rs) 1) as [Hshort|Hlong].
    + rewrite (get_stats_short t s), (get_stats_short t' s') by lia.
      split; [intros st|intros e]; split; intros E; inversion E; reflexivity.
    + rewrite (get_stats_cases t s rs Hd Hlong),
        (get_stats_cases t' s' rs Hd' Hlong).
      destruct (Qle_bool 0 _);
        (split; [intros st|intros e]; split; intros E; inversion E;
         reflexivity).
Qed.

Lemma get_stats_spec_witness :
  denotes store10 (bounds_history trackA) (replicate 5 (box 0 0 10 10 50))
  /\ (2 <= length (replicate 5 (box 0 0 10 10 50)))%nat
  /\ (0 <= total (map Region.pixel_variance
                      (replicate 5 (box 0 0 10 10 50))))%Q
  /\ exists st, get_stats trackA store10 = Ok (st, store10)
       /\ (0 <= score st <= 200)%R.
Proof.
  assert (Hlen : (2 <= length (replicate 5 (box 0 0 10 10 50)))%nat)
    by (cbn; lia).
  assert (Hsum : (0 <= total (map Region.pixel_variance
                                  (replicate 5 (box 0 0 10 10 50))))%Q)
    by (vm_compute; discriminate).
  split; [exact store10_trackA|]. split; [exact Hlen|].
  split; [exact Hsum|].
  destruct (get_stats_spec trackA store10 _ store10_trackA)
    as (_ & H2 & _).
  destruct (H2 Hlen Hsum) as (first & st & _ & He & _ & _ & _ & _ & _
                                & _ & Hs).
  exists st. split; assumption.
Defined.

Lemma Q2R_inject_Z (n : Z) : Q2R (inject_Z n) = IZR n.
Proof. unfold Q2R. cbn. rewrite Rinv_1, Rmult_1_r. reflexivity. Qed.

(** The scenario of three frames of mass 10 that do not move: every
    statistic is 0 except the average and the median mass, which are 10. *)
Example get_stats_still :
  exists st,
    get_stats track_still store_still = Ok (st, store_still)
    /\ movement st = 0%R /\ max_offset st = 0%R /\ delta_std st = 0%R
    /\ average_mass st = 10%R /\ median_mass st = 10%R /\ score st = 0%R.
Proof.
  exists (stats_of (replicate 3 (box 0 0 10 10 10))).
  assert (Hm : movement_of (replicate 3 (box 0 0 10 10 10)) = 0%R).
  { cbn [replicate movement_of]. rewrite !norm_zero by reflexivity. lra. }
  assert (Ho : max_offset (stats_of (replicate 3 (box 0 0 10 10 10))) = 0%R).
  { unfold stats_of, offset_from. cbn [max_offset replicate hd tl map fold_left].
    rewrite !norm_zero by reflexivity.
    unfold Rmax. repeat destruct (Rle_dec _ _); lra. }
  assert (Hv : Q2R (np_mean (map Region.pixel_variance
                               (replicate 3 (box 0 0 10 10 10)))) = 0%R).
  { rewrite <- RMicromega.Q2R_0. apply Qeq_eqR. reflexivity. }
  assert (Hd : delta_std (stats_of (replicate 3 (box 0 0 10 10 10))) = 0%R).
  { unfold stats_of. cbn [delta_std]. rewrite Hv. apply sqrt_0. }
  split.
  - apply get_stats_eval; [repeat constructor|cbn; lia|].
    vm_compute. discriminate.
  - split; [exact Hm|]. split; [exact Ho|]. split; [exact Hd|].
    split; [|split].
    + unfold stats_of. cbn [average_mass].
      rewrite <- (Q2R_inject_Z 10). apply Qeq_eqR. reflexivity.
    + unfold stats_of. cbn [median_mass].
      rewrite <- (Q2R_inject_Z 10). apply Qeq_eqR. reflexivity.
    + change (score (stats_of (replicate 3 (box 0 0 10 10 10))))
        with (Rmin (sqrt (movement_of (replicate 3 (box 0 0 10 10 10)))
                    + max_offset (stats_of (replicate 3 (box 0 0 10 10 10))))
                   100
              + Rmin (delta_std (stats_of (replicate 3 (box 0 0 10 10 10)))
                      * 25) 100)%R.
      rewrite Hm, Ho, Hd, sqrt_0.
      unfold Rmin. repeat destruct (Rle_dec _ _); lra.
Qed.

(** * Further properties *)

(** ** Frames are snapshots *)

(** X1: [add_frame] appends a reference to a new object that holds the
    values of the region given; the length grows by one, the counter of
    frames since the target was seen is reset, the start frame, the id and
    the tag stay, and the earlier entries and the region given are as
    before. *)
Theorem add_frame_appends_copy (t : Track) (s : store) (rs : list Region)
    (region : loc) (r : Region)
    (Hd : denotes s (bounds_history t) rs)
    (Hr : objs s !! region = Some r) :
  exists t' s' c,
    add_frame t region s = Ok (t', s')
    /\ bounds_history t' = bounds_history t ++ [c]
    /\ (c ∉ bounds_history t) /\ c <> region
    /\ objs s' !! c = Some r
    /\ __len__ t' = __len__ t + 1
    /\ frames_since_target_seen t' = 0
    /\ start_frame t' = start_frame t /\ id t' = id t /\ tag t' = tag t
    /\ denotes s' (bounds_history t) rs
    /\ objs s' !! region = Some r.
Proof.
  eexists _, _, (length (objs s)).
  split; [exact (add_frame_eval t s rs region r Hd Hr)|].
  split; [reflexivity|]. split; [exact (denotes_fresh s _ _ Hd)|].
  split; [apply lookup_lt_Some in Hr; lia|].
  split; [cbn; apply list_lookup_middle; reflexivity|].
  split; [unfold __len__; cbn; rewrite len_app; reflexivity|].
  repeat (split; [reflexivity|]).
  split; [apply denotes_grow, Hd|].
  cbn. rewrite lookup_app_l; [exact Hr|]. eapply lookup_lt_Some, Hr.
Qed.

Lemma add_frame_appends_copy_witness :
  denotes store5 (bounds_history track5) (objs store5)
  /\ objs store5 !! 2%nat = Some (box 2 0 10 10 50)
  /\ exists t' s' c,
       add_frame track5 2%nat store5 = Ok (t', s')
       /\ bounds_history t' = bounds_history track5 ++ [c]
       /\ objs s' !! c = Some (box 2 0 10 10 50).
Proof.
  split; [exact store5_denotes|]. split; [reflexivity|].
  destruct (add_frame_appends_copy track5 store5 (objs store5) 2%nat
              (box 2 0 10 10 50) store5_denotes eq_refl)
    as (t' & s' & c & H1 & H2 & _ & _ & H3 & _).
  exists t', s', c. auto.
Defined.

(** X2: the stored frame is a snapshot: assigning to the attributes of the
    caller's region after [add_frame] leaves the stored copy with the
    values the region had at the call. *)
Theorem add_frame_stores_snapshot (t : Track) (s : store) (rs : list Region)
    (region : loc) (r : Region) (f : Region -> Region)
    (Hd : denotes s (bounds_history t) rs)
    (Hr : objs s !! region = Some r) :
  exists t' s' c s'',
    add_frame t region s = Ok (t', s')
    /\ last (bounds_history t') = Some c
    /\ modify region f s' = Ok (tt, s'')
    /\ objs s'' !! region = Some (f r)
    /\ objs s'' !! c = Some r.
Proof.
  pose proof (lookup_lt_Some _ _ _ Hr) as Hlt.
  eexists _, _, (length (objs s)), _.
  split; [exact (add_frame_eval t s rs region r Hd Hr)|].
  split; [cbn; apply last_snoc|].
  assert (Hr' : (objs s ++ [r]) !! region = Some r)
    by (rewrite lookup_app_l; [exact Hr|exact Hlt]).
  split; [unfold modify; cbn [objs cls_track_id]; rewrite Hr'; reflexivity|].
  cbn [objs]. split.
  - apply list_lookup_insert_eq. rewrite length_app. cbn. lia.
  - rewrite list_lookup_insert_ne by lia.
    apply list_lookup_middle. reflexivity.
Qed.

Lemma add_frame_stores_snapshot_witness :
  denotes store5 (bounds_history track5) (objs store5)
  /\ objs store5 !! 2%nat = Some (box 2 0 10 10 50)
  /\ exists t' s' c s'',
       add_frame track5 2%nat store5 = Ok (t', s')
       /\ modify 2%nat (set_mass 0) s' = Ok (tt, s'')
       /\ objs s'' !! c = Some (box 2 0 10 10 50).
Proof.
  split; [exact store5_denotes|]. split; [reflexivity|].
  destruct (add_frame_stores_snapshot track5 store5 (objs store5) 2%nat
              (box 2 0 10 10 50) (set_mass 0) store5_denotes eq_refl)
    as (t' & s' & c & s'' & H1 & _ & H2 & _ & H3).
  exists t', s', c, s''. auto.
Defined.

(** ** The current bounds and mass *)

(** X3: the properties [bounds] and [mass] raise [IndexError] on a track
    without history; otherwise they return the last entry of the history
    and the mass of its region, and leave the store as it is. *)
Theorem bounds_and_mass_of_last (t : Track) (s : store) (rs : list Region)
    (Hd : denotes s (bounds_history t) rs) :
  match last rs with
  | None => bounds t s = Raise IndexError /\ mass t s = Raise IndexError
  | Some r =>
      exists b, last (bounds_history t) = Some b
        /\ bounds t s = Ok (b, s)
        /\ mass t s = Ok (Region.mass r, s)
  end.
Proof.
  destruct rs as [|r rs' _] using rev_ind.
  - inversion Hd as [Hh|]. cbn. unfold bounds, mass, bind.
    rewrite <- Hh, getitem_empty. split; reflexivity.
  - rewrite last_snoc.
    apply Forall2_app_inv_r in Hd as (h & hb & Hh & Hb & Heq).
    inversion Hb as [|b ? ? ? Hbr Hnil]; subst. inversion Hnil; subst.
    exists b. unfold bounds, mass. rewrite Heq.
    split; [apply last_snoc|]. split; [apply getitem_last|].
    rewrite (bind_ok _ _ _ _ _ (getitem_last h b s)).
    apply attr_ok, Hbr.
Qed.

Lemma bounds_and_mass_of_last_witness :
  denotes store5 (bounds_history track5) (objs store5)
  /\ bounds track5 store5 = Ok (4%nat, store5)
  /\ mass track5 store5 = Ok (1%Q, store5).
Proof.
  split; [exact store5_denotes|].
  pose proof (bounds_and_mass_of_last track5 store5 (objs store5)
                store5_denotes) as H.
  cbn [last objs store5] in H. destruct H as (b & Hb & H1 & H2).
  cbn in Hb. injection Hb as <-. split; assumption.
Defined.

(** ** Velocity of the first frames *)

(** X4: a new track, whatever id it was given, has velocity (0, 0) after
    its first frame, and after its second frame the difference between the
    midpoints of the second and the first region. *)
Theorem first_two_frames_velocity (v : pyval) (s : store) (l1 l2 : loc)
    (r1 r2 : Region)
    (H1 : objs s !! l1 = Some r1) (H2 : objs s !! l2 = Some r2) :
  exists t0 t1 s1 t2 s2,
    __init__ v s = Ok (t0, s)
    /\ add_frame t0 l1 s = Ok (t1, s1)
    /\ vel_x t1 = 0%Q /\ vel_y t1 = 0%Q
    /\ add_frame t1 l2 s1 = Ok (t2, s2)
    /\ vel_x t2 = (mid_x r2 - mid_x r1)%Q
    /\ vel_y t2 = (mid_y r2 - mid_y r1)%Q
    /\ __len__ t2 = 2.
Proof.
  assert (Hinit : exists t0, __init__ v s = Ok (t0, s)
                             /\ bounds_history t0 = []).
  { unfold __init__. destruct (negb (truthy v)); eexists;
      split; reflexivity. }
  destruct Hinit as (t0 & Hi & Hh0).
  assert (Hd0 : denotes s (bounds_history t0) [])
    by (rewrite Hh0; constructor).
  pose proof (add_frame_eval t0 s [] l1 r1 Hd0 H1) as E1.
  set (t1 := set_vel_y _ _) in E1. set (s1 := mkStore _ _) in E1.
  assert (Hd1 : denotes s1 (bounds_history t1) [r1])
    by (apply (denotes_snoc s _ [] r1), Hd0).
  assert (H2' : objs s1 !! l2 = Some r2).
  { cbn. rewrite lookup_app_l; [exact H2|]. eapply lookup_lt_Some, H2. }
  pose proof (add_frame_eval t1 s1 [r1] l2 r2 Hd1 H2') as E2.
  exists t0, t1, s1. eexists _, _.
  split; [exact Hi|]. split; [exact E1|].
  split; [reflexivity|]. split; [reflexivity|].
  split; [exact E2|]. split; [reflexivity|]. split; [reflexivity|].
  unfold __len__. cbn. rewrite Hh0. reflexivity.
Qed.

Lemma first_two_frames_velocity_witness :
  objs store3 !! 0%nat = Some (box 0 0 10 10 10)
  /\ objs store3 !! 1%nat = Some (box 5 0 10 10 10)
  /\ exists t0 t1 s1 t2 s2,
       __init__ PyNone store3 = Ok (t0, store3)
       /\ add_frame t0 0%nat store3 = Ok (t1, s1)
       /\ add_frame t1 1%nat s1 = Ok (t2, s2)
       /\ vel_x t2 = (mid_x (box 5 0 10 10 10) - mid_x (box 0 0 10 10 10))%Q.
Proof.
  split; [reflexivity|]. split; [reflexivity|].
  destruct (first_two_frames_velocity PyNone store3 0%nat 1%nat
              (box 0 0 10 10 10) (box 5 0 10 10 10) eq_refl eq_refl)
    as (t0 & t1 & s1 & t2 & s2 & Hi & E1 & _ & _ & E2 & Hx & _).
  exists t0, t1, s1, t2, s2. auto.
Defined.

(** ** Blank frames in a row *)

Lemma mass_eval (t : Track) (s : store) (rs : list Region) (r : Region) :
  denotes s (bounds_history t) (rs ++ [r]) ->
  mass t s = Ok (Region.mass r, s).
Proof.
  intros Hd. apply Forall2_app_inv_r in Hd as (h & hb & Hh & Hb & Heq).
  inversion Hb as [|b ? ? ? Hbr Hnil]; subst. inversion Hnil; subst.
  unfold mass. rewrite Heq.
  rewrite (bind_ok _ _ _ _ _ (getitem_last h b s)). apply attr_ok, Hbr.
Qed.

Lemma blank_after_blank (r : Region) (i : nat) :
  blank_after (blank_of r) i = blank_after r (S i).
Proof. unfold blank_after, blank_of. cbn. f_equal. lia. Qed.

Lemma add_blank_frames_eval (k : nat) :
  forall (t : Track) (s : store) (rs : list Region) (r : Region),
    denotes s (bounds_history t) (rs ++ [r]) ->
    exists t' s',
      add_blank_frames k t s = Ok (t', s')
      /\ denotes s' (bounds_history t')
                 (rs ++ [r] ++ map (blank_after r) (seq 1 k))
      /\ frames_since_target_seen t' = frames_since_target_seen t
      /\ start_frame t' = start_frame t
      /\ id t' = id t /\ tag t' = tag t
      /\ ((0 < k)%nat -> vel_x t' = 0%Q /\ vel_y t' = 0%Q).
Proof.
  induction k as [|k IH]; intros t s rs r Hd.
  - exists t, s. cbn [seq map app add_blank_frames].
    repeat (split; [first [exact Hd|reflexivity]|]). intros H. lia.
  - pose proof Hd as Hd'.
    apply Forall2_app_inv_r in Hd' as (h & hb & Hh & Hb & Heq).
    inversion Hb as [|b ? ? ? Hbr Hnil]; subst. inversion Hnil; subst.
    pose proof (add_blank_frame_eval t s h b r Heq Hbr) as E.
    set (t1 := set_vel_x _ _) in E. set (s1 := mkStore _ _) in E.
    assert (Hd1 : denotes s1 (bounds_history t1) ((rs ++ [r]) ++ [blank_of r]))
      by (apply denotes_snoc, Hd).
    destruct (IH t1 s1 (rs ++ [r]) (blank_of r) Hd1)
      as (t' & s' & E' & Hd2 & Hf & Hs & Hi & Ht & Hv).
    exists t', s'. cbn [add_blank_frames].
    rewrite (bind_ok _ _ _ _ _ E). split; [exact E'|].
    split.
    + replace (rs ++ [r] ++ map (blank_after r) (seq 1 (S k)))
        with ((rs ++ [r]) ++ [blank_of r]
              ++ map (blank_after (blank_of r)) (seq 1 k)); [exact Hd2|].
      assert (Hm : map (blank_after (blank_of r)) (seq 1 k)
                   = map (blank_after r) (seq 2 k)).
      { rewrite <- (seq_shift k 1), map_map. apply map_ext. intros i.
        apply blank_after_blank. }
      rewrite Hm, <- app_assoc. reflexivity.
    + split; [exact Hf|]. split; [exact Hs|]. split; [exact Hi|].
      split; [exact Ht|]. intros _.
      destruct k as [|k]; [|apply Hv; lia].
      cbn in E'. injection E' as <- <-. split; reflexivity.
Qed.

(** X5: blank frames carry the position forward.  After [k] calls of
    [add_blank_frame] on a track with history, the history has [k] more
    entries; the [i]-th of them has the position and size of the last
    region before the calls, mass 0, pixel variance 0 and its frame index
    plus [i].  The counter of frames since the target was seen is as
    before, and after one call or more the velocity is (0, 0) and the
    property [mass] returns 0. *)
Theorem blank_frames_carry_position (k : nat) (t : Track) (s : store)
    (rs : list Region) (r : Region)
    (Hd : denotes s (bounds_history t) rs) (Hlast : last rs = Some r) :
  exists t' s',
    add_blank_frames k t s = Ok (t', s')
    /\ denotes s' (bounds_history t') (rs ++ map (blank_after r) (seq 1 k))
    /\ __len__ t' = __len__ t + Z.of_nat k
    /\ frames_since_target_seen t' = frames_since_target_seen t
    /\ start_frame t' = start_frame t
    /\ ((0 < k)%nat ->
        vel_x t' = 0%Q /\ vel_y t' = 0%Q /\ mass t' s' = Ok (0%Q, s')).
Proof.
  destruct rs as [|r' rs' _] using rev_ind; [discriminate|].
  rewrite last_snoc in Hlast. injection Hlast as ->.
  destruct (add_blank_frames_eval k t s rs' r Hd)
    as (t' & s' & E & Hd' & Hf & Hs & _ & _ & Hv).
  exists t', s'. split; [exact E|].
  rewrite <- app_assoc. split; [exact Hd'|].
  split.
  { unfold __len__, len. apply denotes_length in Hd, Hd'.
    rewrite Hd, Hd'. rewrite !length_app, length_map, length_seq. lia. }
  split; [exact Hf|]. split; [exact Hs|].
  intros Hk. destruct (Hv Hk) as [Hx Hy]. split; [exact Hx|].
  split; [exact Hy|].
  destruct k as [|k]; [lia|].
  rewrite seq_S, map_app, !app_assoc in Hd'. cbn [map] in Hd'.
  apply (mass_eval t' s' _ _ Hd').
Qed.

Lemma blank_frames_carry_position_witness :
  denotes store5 (bounds_history track5) (objs store5)
  /\ last (objs store5) = Some (box 4 0 10 10 1)
  /\ exists t' s',
       add_blank_frames 3 track5 store5 = Ok (t', s')
       /\ __len__ t' = __len__ track5 + 3
       /\ mass t' s' = Ok (0%Q, s').
Proof.
  split; [exact store5_denotes|]. split; [reflexivity|].
  destruct (blank_frames_carry_position 3 track5 store5 (objs store5)
              (box 4 0 10 10 1) store5_denotes eq_refl)
    as (t' & s' & E & _ & Hl & _ & _ & Hv).
  exists t', s'. split; [exact E|]. split; [exact Hl|].
  apply Hv. lia.
Defined.

(** ** smooth *)

(** X6: [smooth] raises [IndexError] exactly when the history has one
    entry; on every other history it returns. *)
Theorem smooth_raises_iff_one_entry (t : Track) (fb : Rectangle) (s : store)
    (rs : list Region)
    (Hd : denotes s (bounds_history t) rs) :
  (smooth t fb s = Raise IndexError <-> length (bounds_history t) = 1%nat)
  /\ (length (bounds_history t) <> 1%nat ->
      exists t' s', smooth t fb s = Ok (t', s')).
Proof.
  assert (Hok : length (bounds_history t) <> 1%nat ->
                exists t' s', smooth t fb s = Ok (t', s')).
  { intros Hn. destruct (bounds_history t) as [|l0 h] eqn:Eh.
    - exists t, s. apply smooth_empty_noop, Eh.
    - rewrite <- Eh in *. eexists _, _.
      apply (smooth_eval t fb s rs Hd). rewrite Eh in *. cbn in *. lia. }
  split; [split|exact Hok].
  - intros Hr. destruct (Nat.eq_dec (length (bounds_history t)) 1%nat)
      as [H1|H1]; [exact H1|].
    destruct (Hok H1) as (t' & s' & E). rewrite E in Hr. discriminate.
  - intros H1. destruct (bounds_history t) as [|l [|l' h]] eqn:Eh;
      try discriminate.
    apply (smooth_single_raises t fb s l Eh).
Qed.

Lemma smooth_raises_iff_one_entry_witness :
  denotes store5 (bounds_history track5) (objs store5)
  /\ exists t' s', smooth track5 (Rectangle.mk 0 0 160 120) store5
                   = Ok (t', s').
Proof.
  split; [exact store5_denotes|].
  destruct (smooth_raises_iff_one_entry track5 (Rectangle.mk 0 0 160 120)
              store5 (objs store5) store5_denotes) as [_ H].
  apply H. cbn. lia.
Defined.

Lemma denotes_block (pre extra : list Region) (c : Z) :
  denotes (mkStore (pre ++ extra) c)
          (map (fun k => (length pre + k)%nat) (seq 0 (length extra))) extra.
Proof.
  unfold denotes. cbn [objs]. revert pre.
  induction extra as [|x extra IH]; intros pre; [constructor|].
  cbn [length seq map]. constructor.
  - rewrite Nat.add_0_r. apply list_lookup_middle. reflexivity.
  - specialize (IH (pre ++ [x])). rewrite <- app_assoc in IH. cbn [app] in IH.
    rewrite <- seq_shift, map_map.
    erewrite map_ext; [exact IH|]. intros k. rewrite length_app. cbn. lia.
Qed.

Lemma NoDup_offsets (n a m : nat) :
  NoDup (map (fun k => (n + k)%nat) (seq a m)).
Proof.
  revert a. induction m as [|m IH]; intros a; cbn; constructor.
  - rewrite list_elem_of_In, in_map_iff. intros (k & Hk & Hin).
    apply in_seq in Hin. lia.
  - apply IH.
Qed.

(** X7: on a history of two entries or more, [smooth] replaces the
    history by references to new, pairwise distinct objects, as many as
    before; entry [i] is the region built around the midpoint of the old
    entry [i] with the mean width and height of the old entries
    [max(0, i-1)], [i] and [min(len-1, i+1)], all truncated to integers, and
    cropped to the frame.  The old objects are not changed, and the start
    frame, the counter and the velocity of the track stay. *)
Theorem smooth_builds_new_history (t : Track) (fb : Rectangle) (s : store)
    (rs : list Region)
    (Hd : denotes s (bounds_history t) rs)
    (Hlen : (2 <= length rs)%nat) :
  exists t' s' rs',
    smooth t fb s = Ok (t', s')
    /\ denotes s' (bounds_history t') rs'
    /\ length rs' = length rs
    /\ (forall i p c n,
          rs !! (i - 1)%nat = Some p -> rs !! i = Some c ->
          rs !! Nat.min (length rs - 1) (i + 1) = Some n ->
          rs' !! i = Some (smooth_frame fb p c n))
    /\ NoDup (bounds_history t')
    /\ Forall (fun l => l ∉ bounds_history t) (bounds_history t')
    /\ denotes s' (bounds_history t) rs
    /\ start_frame t' = start_frame t
    /\ frames_since_target_seen t' = frames_since_target_seen t
    /\ vel_x t' = vel_x t /\ vel_y t' = vel_y t.
Proof.
  pose proof (denotes_length _ _ _ Hd) as Hl.
  eexists _, _, (smoothed fb rs).
  split; [apply (smooth_eval t fb s rs Hd); lia|].
  cbn [bounds_history set_bounds_history].
  split.
  { rewrite Hl, <- (smoothed_length fb rs). apply denotes_block. }
  split; [apply smoothed_length|].
  split; [intros i p c n; apply smoothed_lookup|].
  split; [apply NoDup_offsets|].
  split.
  { apply Forall_forall. intros l Hin Hold.
    apply list_elem_of_In, in_map_iff in Hin as (k & <- & _).
    apply list_elem_of_lookup in Hold as [i Hi].
    destruct (denotes_lookup s _ rs i _ Hd Hi) as (r & _ & Hr).
    apply lookup_lt_Some in Hr. lia. }
  split; [apply denotes_grow, Hd|].
  repeat split.
Qed.

Lemma smooth_builds_new_history_witness :
  denotes store5 (bounds_history track5) (objs store5)
  /\ (2 <= length (objs store5))%nat
  /\ exists t' s' rs',
       smooth track5 (Rectangle.mk 0 0 160 120) store5 = Ok (t', s')
       /\ denotes s' (bounds_history t') rs'
       /\ length rs' = length (objs store5).
Proof.
  split; [exact store5_denotes|]. split; [cbn; lia|].
  destruct (smooth_builds_new_history track5 (Rectangle.mk 0 0 160 120)
              store5 (objs store5) store5_denotes ltac:(cbn; lia))
    as (t' & s' & rs' & E & Hd & Hl & _).
  exists t', s', rs'. auto.
Defined.

(** ** trim *)

(** X8: [trim] keeps the frames aligned.  It never lengthens the history,
    and an entry that it keeps stands for the same absolute frame as
    before: entry [i] of the trimmed history is the entry of the old
    history at [start_frame' + i - start_frame], where the start frame has
    not moved backwards. *)
Theorem trim_keeps_frame_alignment (t : Track) (s : store) (rs : list Region)
    (Hd : denotes s (bounds_history t) rs) :
  exists t',
    trim t s = Ok (t', s)
    /\ __len__ t' <= __len__ t
    /\ forall i l,
         bounds_history t' !! i = Some l ->
         start_frame t <= start_frame t'
         /\ bounds_history t
              !! Z.to_nat (start_frame t' + Z.of_nat i - start_frame t)
            = Some l.
Proof.
  exists (trimmed (frame_empty s) t). split; [exact (trim_eval t s rs Hd)|].
  unfold trimmed, __len__, len.
  destruct (_ =? _)%nat; cbn [bounds_history start_frame set_bounds_history
                              set_start_frame].
  - split; [cbn; lia|]. intros i l Hl. discriminate.
  - split; [rewrite length_take, length_drop; lia|].
    intros i l Hl. apply lookup_take_Some in Hl as [Hl _].
    rewrite lookup_drop in Hl. split; [lia|].
    replace (Z.to_nat (start_frame t
                       + Z.of_nat (lead (frame_empty s) (bounds_history t))
                       + Z.of_nat i - start_frame t))
      with (lead (frame_empty s) (bounds_history t) + i)%nat by lia.
    exact Hl.
Qed.

Lemma trim_keeps_frame_alignment_witness :
  denotes store5 (bounds_history track5) (objs store5)
  /\ exists t', trim track5 store5 = Ok (t', store5)
       /\ __len__ t' <= __len__ track5.
Proof.
  split; [exact store5_denotes|].
  destruct (trim_keeps_frame_alignment track5 store5 (objs store5)
              store5_denotes) as (t' & E & Hl & _).
  exists t'. auto.
Defined.

(** X9: a track whose first and last frame are not empty is returned by
    [trim] as it is, whatever the frames between them. *)
Theorem trim_clean_track_unchanged (t : Track) (s : store) (rs : list Region)
    (a b : loc)
    (Hd : denotes s (bounds_history t) rs)
    (Ha : head (bounds_history t) = Some a) (Ea : frame_empty s a = false)
    (Hb : last (bounds_history t) = Some b) (Eb : frame_empty s b = false) :
  trim t s = Ok (t, s).
Proof.
  rewrite (trim_eval t s rs Hd). f_equal. f_equal.
  destruct (lead_stripped (frame_empty s) (bounds_history t) a b Ha Ea Hb Eb)
    as [H0 H0r].
  assert (Hn : (0 =? length (bounds_history t))%nat = false)
    by (destruct (bounds_history t); [discriminate|reflexivity]).
  unfold trimmed. rewrite H0, H0r, Hn.
  rewrite !Nat.sub_0_r, drop_0, firstn_all.
  change (Z.of_nat 0) with 0. rewrite Z.add_0_r.
  destruct t. reflexivity.
Qed.

Lemma trim_clean_track_unchanged_witness :
  denotes store10 (bounds_history trackA) (replicate 5 (box 0 0 10 10 50))
  /\ head (bounds_history trackA) = Some 0%nat
  /\ frame_empty store10 0%nat = false
  /\ last (bounds_history trackA) = Some 4%nat
  /\ frame_empty store10 4%nat = false
  /\ trim trackA store10 = Ok (trackA, store10).
Proof.
  repeat (split; [first [exact store10_trackA|reflexivity]|]).
  exact (trim_clean_track_unchanged trackA store10 _ 0%nat 4%nat
           store10_trackA eq_refl eq_refl eq_refl eq_refl).
Defined.

(** ** What the operations keep *)

(** X10: no operation changes an object that was there before the call:
    [add_frame], [add_blank_frame] and [smooth] only add objects behind
    those of the store, [trim] returns the store as it was, and none
    writes the class attribute. *)
Theorem operations_only_add_objects (t : Track) (s : store)
    (rs : list Region) (region : loc) (r : Region) (fb : Rectangle)
    (Hd : denotes s (bounds_history t) rs)
    (Hr : objs s !! region = Some r) :
  (exists t' s' extra,
      add_frame t region s = Ok (t', s')
      /\ objs s' = objs s ++ extra /\ cls_track_id s' = cls_track_id s)
  /\ (rs <> [] ->
      exists t' s' extra,
        add_blank_frame t s = Ok (t', s')
        /\ objs s' = objs s ++ extra /\ cls_track_id s' = cls_track_id s)
  /\ (exists t', trim t s = Ok (t', s))
  /\ (length rs <> 1%nat ->
      exists t' s' extra,
        smooth t fb s = Ok (t', s')
        /\ objs s' = objs s ++ extra /\ cls_track_id s' = cls_track_id s).
Proof.
  split; [|split; [|split]].
  - eexists _, _, _. split; [exact (add_frame_eval t s rs region r Hd Hr)|].
    split; reflexivity.
  - intros Hne. destruct rs as [|r' rs' _] using rev_ind; [contradiction|].
    apply Forall2_app_inv_r in Hd as (h & hb & Hh & Hb & Heq).
    inversion Hb as [|b ? ? ? Hbr Hnil]; subst. inversion Hnil; subst.
    eexists _, _, _. split; [exact (add_blank_frame_eval t s h b r' Heq Hbr)|].
    split; reflexivity.
  - eexists. exact (trim_eval t s rs Hd).
  - intros Hlen. pose proof (denotes_length _ _ _ Hd) as Hl.
    destruct rs as [|r0 rs'].
    + exists t, s, []. inversion Hd as [Hh|].
      split; [apply smooth_empty_noop; congruence|].
      split; [rewrite app_nil_r|]; reflexivity.
    + eexists _, _, _. split.
      * apply (smooth_eval t fb s _ Hd). cbn in *. lia.
      * split; reflexivity.
Qed.

Lemma operations_only_add_objects_witness :
  denotes store5 (bounds_history track5) (objs store5)
  /\ objs store5 !! 0%nat = Some (box 0 0 10 10 1)
  /\ exists t' s' extra,
       add_blank_frame track5 store5 = Ok (t', s')
       /\ objs s' = objs store5 ++ extra.
Proof.
  split; [exact store5_denotes|]. split; [reflexivity|].
  destruct (operations_only_add_objects track5 store5 (objs store5) 0%nat
              (box 0 0 10 10 1) (Rectangle.mk 0 0 160 120)
              store5_denotes eq_refl) as (_ & H & _).
  destruct (H ltac:(discriminate)) as (t' & s' & extra & E & Ho & _).
  exists t', s', extra. auto.
Defined.

Lemma valid_denotes (s : store) (h : list loc) :
  Forall (fun l => (l < length (objs s))%nat) h ->
  exists rs, denotes s h rs.
Proof.
  induction 1 as [|l h Hl _ [rs IH]]; [exists []; constructor|].
  destruct (lookup_lt_is_Some_2 _ _ Hl) as [r Hr].
  exists (r :: rs). constructor; assumption.
Qed.

Lemma denotes_valid (s : store) (h : list loc) (rs : list Region) :
  denotes s h rs -> Forall (fun l => (l < length (objs s))%nat) h.
Proof.
  induction 1 as [|l r h rs Hl _ IH]; constructor; [|exact IH].
  eapply lookup_lt_Some, Hl.
Qed.

Lemma history_ok_snoc (s : store) (h : list loc) (rs : list Region)
    (r : Region) (c : Z) :
  NoDup h -> denotes s h rs ->
  NoDup (h ++ [length (objs s)])
  /\ Forall (fun l => (l < length (objs (mkStore (objs s ++ [r]) c)))%nat)
            (h ++ [length (objs s)]).
Proof.
  intros Hn Hd. split.
  - apply NoDup_app. split; [exact Hn|]. split; [|apply NoDup_singleton].
    intros l Hl Hin. apply list_elem_of_singleton in Hin. subst l.
    exact (denotes_fresh s h rs Hd Hl).
  - eapply denotes_valid. apply denotes_snoc, Hd.
Qed.

(** X11: the entries of a history are objects of their own.  When the
    references of the history are valid and pairwise distinct, they are so
    again after [add_frame], [add_blank_frame], [trim] and [smooth]: an
    assignment to the last entry, as [add_blank_frame] makes, never reaches
    another entry. *)
Theorem history_stays_distinct (t : Track) (s : store) (region : loc)
    (r : Region) (fb : Rectangle)
    (Hok : history_ok s t)
    (Hr : objs s !! region = Some r) :
  (exists t' s', add_frame t region s = Ok (t', s') /\ history_ok s' t')
  /\ (bounds_history t <> [] ->
      exists t' s', add_blank_frame t s = Ok (t', s') /\ history_ok s' t')
  /\ (exists t', trim t s = Ok (t', s) /\ history_ok s t')
  /\ (length (bounds_history t) <> 1%nat ->
      exists t' s', smooth t fb s = Ok (t', s') /\ history_ok s' t').
Proof.
  destruct Hok as [Hn Hv]. destruct (valid_denotes s _ Hv) as [rs Hd].
  pose proof (denotes_length _ _ _ Hd) as Hl.
  split; [|split; [|split]].
  - eexists _, _. split; [exact (add_frame_eval t s rs region r Hd Hr)|].
    exact (history_ok_snoc s _ rs r _ Hn Hd).
  - intros Hne. destruct rs as [|r' rs' _] using rev_ind.
    { inversion Hd as [Hh|]. congruence. }
    pose proof Hd as Hd'.
    apply Forall2_app_inv_r in Hd' as (h & hb & Hh & Hb & Heq).
    inversion Hb as [|b ? ? ? Hbr Hnil]; subst. inversion Hnil; subst.
    eexists _, _. split; [exact (add_blank_frame_eval t s h b r' Heq Hbr)|].
    exact (history_ok_snoc s _ _ (blank_of r') _ Hn Hd).
  - eexists. split; [exact (trim_eval t s rs Hd)|].
    unfold history_ok, trimmed.
    destruct (_ =? _)%nat; cbn [bounds_history set_bounds_history
                                set_start_frame].
    + split; constructor.
    + split.
      * eapply sublist_NoDup; [exact Hn|].
        etransitivity; [apply sublist_take|apply sublist_drop].
      * apply Forall_take, Forall_drop, Hv.
  - intros Hlen. destruct (bounds_history t) as [|l0 h] eqn:Eh.
    + exists t, s. split; [apply smooth_empty_noop, Eh|].
      unfold history_ok. rewrite Eh. split; constructor.
    + rewrite <- Eh in *. eexists _, _. split.
      * apply (smooth_eval t fb s rs Hd). rewrite Eh in *. cbn in *. lia.
      * unfold history_ok.
        cbn [bounds_history set_bounds_history objs].
        split; [apply NoDup_offsets|].
        apply Forall_forall. intros l Hin.
        apply list_elem_of_In, in_map_iff in Hin as (k & <- & Hk).
        apply in_seq in Hk. rewrite length_app, smoothed_length. lia.
Qed.

Lemma store5_history_ok : history_ok store5 track5.
Proof.
  split; [|repeat constructor; cbn; lia].
  apply (NoDup_offsets 0 0 5).
Qed.

Lemma history_stays_distinct_witness :
  history_ok store5 track5
  /\ objs store5 !! 0%nat = Some (box 0 0 10 10 1)
  /\ exists t' s', add_blank_frame track5 store5 = Ok (t', s')
       /\ history_ok s' t'.
Proof.
  split; [exact store5_history_ok|]. split; [reflexivity|].
  destruct (history_stays_distinct track5 store5 0%nat (box 0 0 10 10 1)
              (Rectangle.mk 0 0 160 120) store5_history_ok eq_refl)
    as (_ & H & _).
  apply H. discriminate.
Defined.

(** ** get_overlap_ratio *)

Lemma count_mono {A} (p q : A -> bool) (l : list A) :
  (forall a, p a = true -> q a = true) -> (count p l <= count q l)%nat.
Proof.
  intros H. induction l as [|a l IH]; cbn; [lia|].
  destruct (p a) eqn:E; [rewrite (H a E); lia|]. destruct (q a); lia.
Qed.

Lemma get_overlap_ratio_empty (t other_track : Track) (threshold : Q)
    (s : store) :
  bounds_history t = [] \/ bounds_history other_track = [] ->
  get_overlap_ratio t other_track threshold s = Ok (0%Q, s).
Proof.
  intros H. rewrite get_overlap_ratio_loop_form. cbn zeta.
  destruct H as [-> | ->]; [reflexivity|]. cbn.
  rewrite orb_true_r. reflexivity.
Qed.

Section OverlapRatio.
Variables (t other_track : Track) (s : store) (rs ors : list Region).
Hypothesis Hd : denotes s (bounds_history t) rs.
Hypothesis Hod : denotes s (bounds_history other_track) ors.

Lemma get_overlap_ratio_eval (threshold : Q) :
  rs <> [] -> ors <> [] ->
  (forall pos ours,
      shared_start t other_track <= pos < shared_end t other_track ->
      rs !! Z.to_nat (pos - start_frame t) = Some ours ->
      ~ (area ours == 0)%Q) ->
  get_overlap_ratio t other_track threshold s
  = Ok ((inject_Z (Z.of_nat (count_overlapped rs ors t other_track threshold))
         / inject_Z (len (bounds_history t)))%Q, s).
Proof.
  intros Hne Hone Harea.
  pose proof (denotes_length _ _ _ Hd) as Hl.
  pose proof (denotes_length _ _ _ Hod) as Hol.
  assert (E1 : len (bounds_history t) <> 0)
    by (unfold len; destruct rs; [contradiction|cbn in Hl; lia]).
  assert (E2 : len (bounds_history other_track) <> 0)
    by (unfold len; destruct ors; [contradiction|cbn in Hol; lia]).
  rewrite get_overlap_ratio_loop_form. cbn zeta.
  apply Z.eqb_neq in E1 as E1', E2 as E2'. rewrite E1', E2'. cbn [orb].
  set (a := shared_start t other_track) in *.
  set (e := shared_end t other_track) in *.
  set (p := frame_overlaps rs ors (start_frame t) (start_frame other_track)
                           threshold).
  assert (Hcount : count p (range a (e + 1)) = count p (range a e)).
  { destruct (Z.le_gt_cases a e) as [Hae|Hae].
    - rewrite range_snoc by exact Hae. rewrite count_app. cbn [count].
      unfold p, e. rewrite (frame_overlaps_at_end t other_track threshold s
                              rs ors Hd Hod). lia.
    - rewrite !range_empty by lia. reflexivity. }
  assert (Hloop : forM (range a (e + 1))
                       (overlap_body t other_track threshold) 0 s
                  = Ok (Z.of_nat (count p (range a e)), s)).
  { rewrite (overlap_loop t other_track threshold s rs ors Hd Hod).
    - fold p. fold a e. rewrite Hcount. reflexivity.
    - intros pos ours _ H1 H2 H3 H4. apply (Harea pos ours); [|exact H2].
      apply lookup_lt_Some in H2. unfold a, e, shared_start, shared_end.
      unfold len in *. lia. }
  rewrite (bind_ok _ _ _ _ _ Hloop).
  apply div_ok, inject_Z_nonzero, E1.
Qed.

(** One iteration either returns a count and the store, or raises
    [ZeroDivisionError]; it raises when our region of the frame has no
    area. *)
Lemma overlap_body_cases (threshold : Q) (cnt pos : Z) :
  (exists cnt', overlap_body t other_track threshold cnt pos s = Ok (cnt', s))
  \/ overlap_body t other_track threshold cnt pos s = Raise ZeroDivisionError.
Proof.
  remember (overlap_body t other_track threshold cnt pos s) as res eqn:Eres.
  unfold overlap_body in Eres.
  destruct ((0 <=? pos - start_frame t)
            && (0 <=? pos - start_frame other_track)
            && (pos - start_frame t <? len (bounds_history t))
            && (pos - start_frame other_track
                <? len (bounds_history other_track))) eqn:E;
    [|left; eexists; exact Eres].
  apply andb_true_iff in E as [E E4]. apply andb_true_iff in E as [E E3].
  apply andb_true_iff in E as [E1 E2].
  apply Z.leb_le in E1, E2. apply Z.ltb_lt in E3, E4.
  destruct (lookup_lt_is_Some_2 (bounds_history t)
              (Z.to_nat (pos - start_frame t))
              ltac:(unfold len in E3; lia)) as [l Hl1].
  destruct (lookup_lt_is_Some_2 (bounds_history other_track)
              (Z.to_nat (pos - start_frame other_track))
              ltac:(unfold len in E4; lia)) as [ol Hol1].
  destruct (denotes_lookup _ _ _ _ _ Hd Hl1) as (ours & Hrs & Ho).
  destruct (denotes_lookup _ _ _ _ _ Hod Hol1) as (others & Hors & Hoo).
  rewrite (bind_ok _ _ _ _ _ (getitem_ok _ _ _ s E1 Hl1)) in Eres.
  rewrite (bind_ok _ _ _ _ _ (getitem_ok _ _ _ s E2 Hol1)) in Eres.
  unfold load at 1 in Eres. unfold bind at 1 in Eres. rewrite Ho in Eres.
  unfold load at 1 in Eres. unfold bind at 1 in Eres. rewrite Hoo in Eres.
  rewrite (bind_ok _ _ _ _ _ (attr_ok area _ _ _ Ho)) in Eres.
  destruct (Qeq_bool (area ours) 0) eqn:Ez.
  - right. apply Qeq_bool_iff in Ez. unfold bind in Eres.
    rewrite (div_zero _ _ s Ez) in Eres. exact Eres.
  - left. apply Qeq_bool_neq in Ez.
    rewrite (bind_ok _ _ _ _ _ (div_ok _ _ s Ez)) in Eres.
    destruct (Qle_bool _ _); eexists; exact Eres.
Qed.

Lemma overlap_body_zero_area (threshold : Q) (cnt pos : Z) (ours : Region) :
  shared_start t other_track <= pos < shared_end t other_track ->
  rs !! Z.to_nat (pos - start_frame t) = Some ours ->
  (area ours == 0)%Q ->
  overlap_body t other_track threshold cnt pos s = Raise ZeroDivisionError.
Proof.
  intros Hpos Hrs Hz. unfold shared_start, shared_end in Hpos.
  unfold overlap_body.
  replace ((0 <=? pos - start_frame t)
           && (0 <=? pos - start_frame other_track)
           && (pos - start_frame t <? len (bounds_history t))
           && (pos - start_frame other_track
               <? len (bounds_history other_track))) with true
    by (symmetry; rewrite !andb_true_iff, !Z.leb_le, !Z.ltb_lt; lia).
  destruct (lookup_lt_is_Some_2 (bounds_history t)
              (Z.to_nat (pos - start_frame t))
              ltac:(unfold len in *; lia)) as [l Hl1].
  destruct (lookup_lt_is_Some_2 (bounds_history other_track)
              (Z.to_nat (pos - start_frame other_track))
              ltac:(unfold len in *; lia)) as [ol Hol1].
  destruct (denotes_lookup _ _ _ _ _ Hd Hl1) as (ours' & Hrs' & Ho).
  destruct (denotes_lookup _ _ _ _ _ Hod Hol1) as (others & Hors & Hoo).
  assert (ours' = ours) by congruence. subst ours'.
  assert (I1 : 0 <= pos - start_frame t) by lia.
  assert (I2 : 0 <= pos - start_frame other_track) by lia.
  rewrite (bind_ok _ _ _ _ _ (getitem_ok _ _ _ s I1 Hl1)).
  rewrite (bind_ok _ _ _ _ _ (getitem_ok _ _ _ s I2 Hol1)).
  unfold load at 1. unfold bind at 1. rewrite Ho.
  unfold load at 1. unfold bind at 1. rewrite Hoo.
  rewrite (bind_ok _ _ _ _ _ (attr_ok area _ _ _ Ho)).
  unfold bind. rewrite (div_zero _ _ s Hz). reflexivity.
Qed.

Lemma overlap_loop_raises (threshold : Q) (ps : list Z) (pos : Z)
    (ours : Region) :
  In pos ps ->
  shared_start t other_track <= pos < shared_end t other_track ->
  rs !! Z.to_nat (pos - start_frame t) = Some ours ->
  (area ours == 0)%Q ->
  forall cnt,
    forM ps (overlap_body t other_track threshold) cnt s
    = Raise ZeroDivisionError.
Proof.
  intros Hin Hpos Hrs Hz.
  induction ps as [|p ps IH]; intros cnt; [destruct Hin|].
  cbn [forM]. destruct Hin as [->|Hin].
  - unfold bind.
    rewrite (overlap_body_zero_area threshold cnt pos ours Hpos Hrs Hz).
    reflexivity.
  - destruct (overlap_body_cases threshold cnt p) as [[cnt' E]|E].
    + rewrite (bind_ok _ _ _ _ _ E). apply IH, Hin.
    + unfold bind. rewrite E. reflexivity.
Qed.
End OverlapRatio.

Lemma in_range (a b pos : Z) : a <= pos < b -> In pos (range a b).
Proof.
  intros H. unfold range. apply in_map_iff. exists (Z.to_nat (pos - a)).
  split; [lia|]. apply in_seq. lia.
Qed.

(** X12: a frame of the shared range in which our region has area 0 makes
    [get_overlap_ratio] raise [ZeroDivisionError], whatever the threshold
    and the other frames. *)
Theorem overlap_ratio_raises_on_zero_area (t other_track : Track)
    (threshold : Q) (s : store) (rs ors : list Region) (pos : Z)
    (ours : Region)
    (Hd : denotes s (bounds_history t) rs)
    (Hod : denotes s (bounds_history other_track) ors)
    (Hpos : shared_start t other_track <= pos < shared_end t other_track)
    (Hrs : rs !! Z.to_nat (pos - start_frame t) = Some ours)
    (Hz : (area ours == 0)%Q) :
  get_overlap_ratio t other_track threshold s = Raise ZeroDivisionError.
Proof.
  rewrite get_overlap_ratio_loop_form. cbn zeta.
  assert (E : (len (bounds_history t) =? 0)
              || (len (bounds_history other_track) =? 0) = false).
  { unfold shared_start, shared_end in Hpos.
    apply orb_false_iff. rewrite !Z.eqb_neq.
    pose proof (len_nonneg (bounds_history t)).
    pose proof (len_nonneg (bounds_history other_track)). lia. }
  assert (Hin : In pos (range (shared_start t other_track)
                              (shared_end t other_track + 1)))
    by (apply in_range; lia).
  rewrite E. unfold bind.
  rewrite (overlap_loop_raises t other_track s rs ors Hd Hod threshold
             _ pos ours Hin Hpos Hrs Hz).
  reflexivity.
Qed.

Lemma overlap_ratio_raises_on_zero_area_witness :
  denotes flat_store (bounds_history flat_track) [box 0 0 0 10 50]
  /\ shared_start flat_track flat_track <= 0 < shared_end flat_track flat_track
  /\ (area (box 0 0 0 10 50) == 0)%Q
  /\ get_overlap_ratio flat_track flat_track (1 # 2) flat_store
     = Raise ZeroDivisionError.
Proof.
  assert (Hd : denotes flat_store (bounds_history flat_track)
                       [box 0 0 0 10 50]) by (repeat constructor).
  assert (Hpos : shared_start flat_track flat_track <= 0
                 < shared_end flat_track flat_track)
    by (unfold shared_start, shared_end, len; cbn; lia).
  split; [exact Hd|]. split; [exact Hpos|]. split; [reflexivity|].
  apply (overlap_ratio_raises_on_zero_area flat_track flat_track (1 # 2)
           flat_store _ _ 0 (box 0 0 0 10 50) Hd Hd Hpos);
    reflexivity.
Defined.

Lemma frame_overlaps_antitone (rs ors : list Region) (sf osf : Z)
    (thr1 thr2 : Q) (pos : Z) :
  (thr1 <= thr2)%Q ->
  frame_overlaps rs ors sf osf thr2 pos = true ->
  frame_overlaps rs ors sf osf thr1 pos = true.
Proof.
  intros Hle. unfold frame_overlaps.
  destruct ((0 <=? pos - sf) && (0 <=? pos - osf)); [|discriminate].
  cbn [andb]. destruct (rs !! _); [|discriminate].
  destruct (ors !! _); [|discriminate].
  rewrite !Qle_bool_iff. intros H. eapply Qle_trans; eassumption.
Qed.

(** X13: raising the threshold never raises the ratio: for two thresholds
    [thr1 <= thr2], the ratio that [get_overlap_ratio] returns for [thr2]
    is at most the one it returns for [thr1]. *)
Theorem overlap_ratio_antitone (t other_track : Track) (thr1 thr2 : Q)
    (s : store) (rs ors : list Region)
    (Hd : denotes s (bounds_history t) rs)
    (Hod : denotes s (bounds_history other_track) ors)
    (Harea : forall pos ours,
        shared_start t other_track <= pos < shared_end t other_track ->
        rs !! Z.to_nat (pos - start_frame t) = Some ours ->
        ~ (area ours == 0)%Q)
    (Hle : (thr1 <= thr2)%Q) :
  exists q1 q2,
    get_overlap_ratio t other_track thr1 s = Ok (q1, s)
    /\ get_overlap_ratio t other_track thr2 s = Ok (q2, s)
    /\ (q2 <= q1)%Q.
Proof.
  pose proof (denotes_length _ _ _ Hd) as Hl.
  pose proof (denotes_length _ _ _ Hod) as Hol.
  destruct rs as [|r0 rs'] eqn:Ers.
  { exists 0%Q, 0%Q. inversion Hd as [Hh|].
    rewrite !get_overlap_ratio_empty by (left; congruence).
    repeat split. apply Qle_refl. }
  destruct ors as [|o0 ors'] eqn:Eors.
  { exists 0%Q, 0%Q. inversion Hod as [Hh|].
    rewrite !get_overlap_ratio_empty by (right; congruence).
    repeat split. apply Qle_refl. }
  rewrite <- Ers, <- Eors in *.
  assert (Hne : rs <> []) by (rewrite Ers; discriminate).
  assert (Hone : ors <> []) by (rewrite Eors; discriminate).
  eexists _, _.
  split; [exact (get_overlap_ratio_eval t other_track s rs ors Hd Hod thr1
                   Hne Hone Harea)|].
  split; [exact (get_overlap_ratio_eval t other_track s rs ors Hd Hod thr2
                   Hne Hone Harea)|].
  unfold Qdiv. apply Qmult_le_compat_r.
  - rewrite <- Zle_Qle. apply inj_le. unfold count_overlapped.
    apply count_mono. intros pos. apply frame_overlaps_antitone, Hle.
  - apply Qinv_le_0_compat. change 0%Q with (inject_Z 0).
    rewrite <- Zle_Qle. apply len_nonneg.
Qed.

Lemma area_box_nonzero (pos : Z) (ours : Region) :
  replicate 5 (box 0 0 10 10 50) !! Z.to_nat (pos - start_frame trackA)
  = Some ours ->
  ~ (area ours == 0)%Q.
Proof.
  intros Hl. apply lookup_replicate in Hl as [-> _].
  vm_compute. discriminate.
Qed.

Lemma overlap_ratio_antitone_witness :
  (5 # 100 <= 1 # 2)%Q
  /\ exists q1 q2,
       get_overlap_ratio trackA trackB (5 # 100) store10 = Ok (q1, store10)
       /\ get_overlap_ratio trackA trackB (1 # 2) store10 = Ok (q2, store10)
       /\ (q2 <= q1)%Q.
Proof.
  assert (Hle : (5 # 100 <= 1 # 2)%Q) by (vm_compute; discriminate).
  split; [exact Hle|].
  exact (overlap_ratio_antitone trackA trackB (5 # 100) (1 # 2) store10 _ _
           store10_trackA store10_trackB
           (fun pos ours _ => area_box_nonzero pos ours) Hle).
Defined.

(** ** Construction *)

(** X14: the counter does not count.  However many tracks are constructed
    without an id, one after the other, each receives the value the class
    attribute has at the start, and the class attribute and the store are
    the same at the end. *)
Theorem constructed_ids_all_equal (n : nat) (s : store) :
  exists ts,
    construct_all n s = Ok (ts, s)
    /\ length ts = n
    /\ Forall (fun t => id t = PyInt (cls_track_id s)) ts.
Proof.
  unfold construct_all. eexists. split.
  - apply (mapM_pure _ (fun _ => mkTrack (PyInt (cls_track_id s))
                                   (Some (cls_track_id s + 1)) 0 [] 0 0 0
                                   "unknown")).
    intros a _. apply init_auto.
  - split; [rewrite length_map; apply length_seq|].
    apply Forall_forall. intros t Hin.
    apply list_elem_of_In, in_map_iff in Hin as (k & <- & _). reflexivity.
Qed.

(** ** get_track_region_score *)

Lemma Qabs_zero (q : Q) : (Qabs q == 0)%Q -> (q == 0)%Q.
Proof.
  intros H. apply Qle_antisym.
  - rewrite <- H. apply Qle_Qabs.
  - pose proof (Qle_Qabs (- q)) as Hn. rewrite Qabs_opp, H in Hn. Lqa.lra.
Qed.

(** X15: for a current region whose area is not negative, both scores are
    defined and not negative, and the size difference is 0 exactly when
    the region has the area of the current one. *)
Theorem region_score_nonneg (t : Track) (s : store) (rs : list Region)
    (region : loc) (cur r : Region)
    (Hd : denotes s (bounds_history t) rs)
    (Hlast : last rs = Some cur)
    (Hr : objs s !! region = Some r)
    (Harea : (0 <= area cur)%Q) :
  exists d sd,
    get_track_region_score t region s = Ok ((d, sd), s)
    /\ (0 <= d)%R /\ (0 <= sd)%Q
    /\ ((sd == 0)%Q <-> (area r == area cur)%Q).
Proof.
  destruct rs as [|r' rs' _] using rev_ind; [discriminate|].
  rewrite last_snoc in Hlast. injection Hlast as ->.
  apply Forall2_app_inv_r in Hd as (h & hb & Hh & Hb & Heq).
  inversion Hb as [|b ? ? ? Hbr Hnil]; subst. inversion Hnil; subst.
  assert (Hpos : (0 < area cur + 50)%Q) by Lqa.lra.
  assert (Hpad : ~ (area cur + 50 == 0)%Q) by Lqa.lra.
  eexists _, _.
  split; [exact (get_track_region_score_eval t s h b region cur r Heq Hbr Hr
                   Hpad)|].
  split; [apply norm_nonneg|].
  unfold score_size_difference.
  pose proof (Qabs_nonneg (area r - area cur)) as Habs.
  assert (Hq : (0 <= Qabs (area r - area cur) / (area cur + 50))%Q).
  { apply Qle_shift_div_l; [exact Hpos|]. rewrite Qmult_0_l. exact Habs. }
  split; [apply Qmult_le_0_compat; [exact Hq|discriminate]|].
  split.
  - intros Hz.
    assert (Ha : (Qabs (area r - area cur) == 0)%Q).
    { assert (E : (Qabs (area r - area cur)
                   == Qabs (area r - area cur) / (area cur + 50) * 100
                      * (area cur + 50) / 100)%Q) by (field; exact Hpad).
      rewrite E, Hz. field. }
    apply Qabs_zero in Ha. Lqa.lra.
  - intros He.
    assert (Hz : (area r - area cur == 0)%Q) by Lqa.lra.
    rewrite Hz. change (Qabs 0) with 0%Q. unfold Qdiv.
    rewrite !Qmult_0_l. reflexivity.
Qed.

Lemma region_score_nonneg_witness :
  denotes unit_store (bounds_history unit_track) [box 0 0 1 1 50]
  /\ (0 <= area (box 0 0 1 1 50))%Q
  /\ exists d sd,
       get_track_region_score unit_track 0%nat unit_store
       = Ok ((d, sd), unit_store)
       /\ (0 <= d)%R /\ (0 <= sd)%Q.
Proof.
  assert (Hd : denotes unit_store (bounds_history unit_track)
                       [box 0 0 1 1 50]) by (repeat constructor).
  assert (Ha : (0 <= area (box 0 0 1 1 50))%Q) by (vm_compute; discriminate).
  split; [exact Hd|]. split; [exact Ha|].
  destruct (region_score_nonneg unit_track unit_store [box 0 0 1 1 50]
              0%nat (box 0 0 1 1 50) (box 0 0 1 1 50) Hd eq_refl eq_refl Ha)
    as (d & sd & E & H1 & H2 & _).
  exists d, sd. auto.
Defined.

(** ** get_stats *)

(** X16: with two entries or more, [get_stats] raises [TypeError] exactly
    when the mean of the pixel variances is negative (its power 0.5 is then
    complex and [min] cannot compare it); otherwise it returns a record and
    the store as it is. *)
Theorem get_stats_raises_iff_negative_mean (t : Track) (s : store)
    (rs : list Region)
    (Hd : denotes s (bounds_history t) rs)
    (Hlen : (2 <= length rs)%nat) :
  (get_stats t s = Raise TypeError
   <-> (np_mean (map Region.pixel_variance rs) < 0)%Q)
  /\ ((0 <= np_mean (map Region.pixel_variance rs))%Q ->
      exists st, get_stats t s = Ok (st, s)).
Proof.
  rewrite (get_stats_cases t s rs Hd Hlen).
  destruct (Qle_bool 0 (np_mean (map Region.pixel_variance rs))) eqn:E.
  - apply Qle_bool_iff in E. split; [split|].
    + discriminate.
    + intros Hneg. exfalso. exact (Qlt_not_le _ _ Hneg E).
    + intros _. eexists. reflexivity.
  - assert (Hneg : (np_mean (map Region.pixel_variance rs) < 0)%Q).
    { apply Qnot_le_lt. intros Hle. apply Qle_bool_iff in Hle. congruence. }
    split; [split; [intros _; exact Hneg|reflexivity]|].
    intros Hle. exfalso. exact (Qlt_not_le _ _ Hneg Hle).
Qed.

Lemma get_stats_raises_iff_negative_mean_witness :
  denotes store_negative (bounds_history track_negative)
          (objs store_negative)
  /\ (2 <= length (objs store_negative))%nat
  /\ get_stats track_negative store_negative = Raise TypeError.
Proof.
  assert (Hd : denotes store_negative (bounds_history track_negative)
                       (objs store_negative)) by (repeat constructor).
  split; [exact Hd|]. split; [cbn; lia|].
  apply (get_stats_raises_iff_negative_mean track_negative store_negative
           (objs store_negative) Hd ltac:(cbn; lia)).
  reflexivity.
Defined.

Lemma norm_compat (a a' b b' : Q) :
  (a == a')%Q -> (b == b')%Q -> norm a b = norm a' b'.
Proof.
  intros Ha Hb. unfold norm. f_equal. apply Qeq_eqR.
  rewrite Ha, Hb. reflexivity.
Qed.

Lemma mid_translate (dx dy : Q) (r1 r2 : Region) :
  (mid_x (translate dx dy r2) - mid_x (translate dx dy r1)
   == mid_x r2 - mid_x r1)%Q
  /\ (mid_y (translate dx dy r2) - mid_y (translate dx dy r1)
      == mid_y r2 - mid_y r1)%Q.
Proof. unfold mid_x, mid_y, translate. cbn. split; ring. Qed.

Lemma movement_of_translate (dx dy : Q) (rs : list Region) :
  movement_of (map (translate dx dy) rs) = movement_of rs.
Proof.
  induction rs as [|r1 rs IH]; [reflexivity|].
  destruct rs as [|r2 rs]; [reflexivity|].
  change (movement_of (map (translate dx dy) (r1 :: r2 :: rs)))
    with (norm (mid_x (translate dx dy r2) - mid_x (translate dx dy r1))
               (mid_y (translate dx dy r2) - mid_y (translate dx dy r1))
          + movement_of (map (translate dx dy) (r2 :: rs)))%R.
  change (movement_of (r1 :: r2 :: rs))
    with (norm (mid_x r2 - mid_x r1) (mid_y r2 - mid_y r1)
          + movement_of (r2 :: rs))%R.
  rewrite IH. f_equal.
  destruct (mid_translate dx dy r1 r2). apply norm_compat; assumption.
Qed.

Lemma stats_of_translate (dx dy : Q) (rs : list Region) :
  rs <> [] -> stats_of (map (translate dx dy) rs) = stats_of rs.
Proof.
  intros Hne. destruct rs as [|first rest]; [contradiction|].
  assert (Hv : map Region.pixel_variance (map (translate dx dy) (first :: rest))
               = map Region.pixel_variance (first :: rest))
    by (rewrite map_map; reflexivity).
  assert (Hm : map int_mass (map (translate dx dy) (first :: rest))
               = map int_mass (first :: rest))
    by (rewrite map_map; reflexivity).
  unfold stats_of. rewrite movement_of_translate, Hv, Hm.
  cbn [map hd tl].
  assert (Hoff : forall r, offset_from (translate dx dy first)
                                       (translate dx dy r)
                           = offset_from first r).
  { intros r. unfold offset_from.
    destruct (mid_translate dx dy first r). apply norm_compat; assumption. }
  rewrite Hoff, map_map. rewrite (map_ext _ _ (fun r => Hoff r)).
  reflexivity.
Qed.

(** X17: the statistics do not depend on where in the frame the track
    runs: two tracks whose regions differ by one translation have the same
    outcome, the same record or the same exception. *)
Theorem get_stats_translation_invariant (t t' : Track) (s s' : store)
    (rs : list Region) (dx dy : Q)
    (Hd : denotes s (bounds_history t) rs)
    (Hd' : denotes s' (bounds_history t') (map (translate dx dy) rs)) :
  (forall st, get_stats t s = Ok (st, s) <-> get_stats t' s' = Ok (st, s'))
  /\ (forall e, get_stats t s = Raise e <-> get_stats t' s' = Raise e).
Proof.
  pose proof (denotes_length _ _ _ Hd) as Hl.
  pose proof (denotes_length _ _ _ Hd') as Hl'. rewrite length_map in Hl'.
  destruct (le_lt_dec (length rs) 1) as [Hshort|Hlong].
  - rewrite (get_stats_short t s), (get_stats_short t' s') by lia.
    split; [intros st|intros e]; split; intros E; inversion E; reflexivity.
  - assert (Hne : rs <> [])
      by (destruct rs; [cbn in Hlong; lia|discriminate]).
    assert (Hlong' : (2 <= length (map (translate dx dy) rs))%nat)
      by (rewrite length_map; lia).
    rewrite (get_stats_cases t s rs Hd Hlong),
      (get_stats_cases t' s' _ Hd' Hlong').
    rewrite (stats_of_translate dx dy rs Hne), map_map.
    cbn [translate Region.pixel_variance].
    destruct (Qle_bool 0 _);
      (split; [intros st|intros e]; split; intros E; inversion E;
       reflexivity).
Qed.

Lemma get_stats_translation_invariant_witness :
  denotes store10 (bounds_history trackA) (replicate 5 (box 0 0 10 10 50))
  /\ denotes (mkStore (map (translate 3 4) (replicate 5 (box 0 0 10 10 50))) 1)
             (bounds_history trackA)
             (map (translate 3 4) (replicate 5 (box 0 0 10 10 50)))
  /\ forall st,
       get_stats trackA store10 = Ok (st, store10)
       <-> get_stats trackA
             (mkStore (map (translate 3 4) (replicate 5 (box 0 0 10 10 50))) 1)
           = Ok (st, mkStore (map (translate 3 4)
                                  (replicate 5 (box 0 0 10 10 50))) 1).
Proof.
  assert (Hd' : denotes
                  (mkStore (map (translate 3 4)
                                (replicate 5 (box 0 0 10 10 50))) 1)
                  (bounds_history trackA)
                  (map (translate 3 4) (replicate 5 (box 0 0 10 10 50))))
    by (repeat constructor).
  split; [exact store10_trackA|]. split; [exact Hd'|].
  exact (proj1 (get_stats_translation_invariant trackA trackA store10 _ _
                  3 4 store10_trackA Hd')).
Defined.

(** ** Overlap and absolute frame numbers *)

Lemma count_map {A B} (f : A -> B) (p : B -> bool) (l : list A) :
  count p (map f l) = count (fun a => p (f a)) l.
Proof. induction l as [|a l IH]; cbn; [|rewrite IH]; reflexivity. Qed.

Lemma count_ext {A} (p q : A -> bool) (l : list A) :
  (forall a, p a = q a) -> count p l = count q l.
Proof.
  intros H. induction l as [|a l IH]; cbn; [|rewrite H, IH]; reflexivity.
Qed.

Lemma range_shift (a b d : Z) :
  range (a + d) (b + d) = map (fun pos => pos + d) (range a b).
Proof.
  unfold range. replace (b + d - (a + d)) with (b - a) by lia.
  rewrite map_map. apply map_ext. intros k. lia.
Qed.

Lemma frame_overlaps_shift (rs ors : list Region) (sf osf d : Z)
    (threshold : Q) (pos : Z) :
  frame_overlaps rs ors (sf + d) (osf + d) threshold (pos + d)
  = frame_overlaps rs ors sf osf threshold pos.
Proof.
  unfold frame_overlaps.
  replace (pos + d - (sf + d)) with (pos - sf) by lia.
  replace (pos + d - (osf + d)) with (pos - osf) by lia.
  reflexivity.
Qed.

(** X18: [get_overlap_ratio] depends on how the two tracks are aligned,
    not on the absolute frame numbers: moving the start frame of both
    tracks by the same number of frames gives the same ratio. *)
Theorem overlap_ratio_shift_invariant (t other_track : Track) (d : Z)
    (threshold : Q) (s : store) (rs ors : list Region)
    (Hd : denotes s (bounds_history t) rs)
    (Hod : denotes s (bounds_history other_track) ors)
    (Harea : forall pos ours,
        shared_start t other_track <= pos < shared_end t other_track ->
        rs !! Z.to_nat (pos - start_frame t) = Some ours ->
        ~ (area ours == 0)%Q) :
  exists q,
    get_overlap_ratio t other_track threshold s = Ok (q, s)
    /\ get_overlap_ratio (set_start_frame (start_frame t + d) t)
         (set_start_frame (start_frame other_track + d) other_track)
         threshold s
       = Ok (q, s).
Proof.
  set (t2 := set_start_frame (start_frame t + d) t).
  set (o2 := set_start_frame (start_frame other_track + d) other_track).
  destruct rs as [|r0 rs'] eqn:Ers.
  { exists 0%Q. inversion Hd as [Hh|].
    rewrite !get_overlap_ratio_empty by (left; cbn; congruence).
    split; reflexivity. }
  destruct ors as [|o0 ors'] eqn:Eors.
  { exists 0%Q. inversion Hod as [Hh|].
    rewrite !get_overlap_ratio_empty by (right; cbn; congruence).
    split; reflexivity. }
  rewrite <- Ers, <- Eors in *.
  assert (Hne : rs <> []) by (rewrite Ers; discriminate).
  assert (Hone : ors <> []) by (rewrite Eors; discriminate).
  assert (Hs : shared_start t2 o2 = shared_start t other_track + d)
    by (unfold shared_start; cbn; lia).
  assert (He : shared_end t2 o2 = shared_end t other_track + d)
    by (unfold shared_end; cbn; lia).
  eexists. split.
  - exact (get_overlap_ratio_eval t other_track s rs ors Hd Hod threshold
             Hne Hone Harea).
  - rewrite (get_overlap_ratio_eval t2 o2 s rs ors Hd Hod threshold Hne Hone).
    + f_equal. f_equal. f_equal. f_equal. f_equal.
      unfold count_overlapped. rewrite Hs, He, range_shift, count_map.
      apply count_ext. intros pos. apply frame_overlaps_shift.
    + intros pos ours Hpos Hl. rewrite Hs, He in Hpos.
      apply (Harea (pos - d) ours); [lia|].
      replace (pos - d - start_frame t)
        with (pos - start_frame t2) by (cbn; lia).
      exact Hl.
Qed.

Lemma overlap_ratio_shift_invariant_witness :
  exists q,
    get_overlap_ratio trackA trackB (5 # 100) store10 = Ok (q, store10)
    /\ get_overlap_ratio (set_start_frame (start_frame trackA + 7) trackA)
         (set_start_frame (start_frame trackB + 7) trackB)
         (5 # 100) store10
       = Ok (q, store10).
Proof.
  exact (overlap_ratio_shift_invariant trackA trackB 7 (5 # 100) store10 _ _
           store10_trackA store10_trackB
           (fun pos ours _ => area_box_nonzero pos ours)).
Defined.
